(** * apipost-mcp: field-list synthesis engine and hierarchy resolver

    A shallow embedding of the pure core of the ApiPost MCP server
    (the compiled [index.js] with [expandFieldListWithParents],
    [buildJsonFromFieldList], [stringifyWithComments], [convertParams],
    [normalizeResponses] and [buildPathMap]) together with the properties
    its specification states about them.

    Conventions of the embedding.
    - JavaScript strings are [string]s; the code only ever looks for the
      ASCII characters [.], [[] and []], so working on bytes is exact.
    - [Set] and [Map] objects keyed by strings are [gset string] and
      [gmap string _]; only [has]/[get]/[set]/[add]/[delete] are used by the
      code, never iteration order.
    - Plain objects are association lists in JavaScript's own key order
      (array-index keys ascending, then the others in insertion order).
    - A value that may be [undefined] is an [option]; truthiness tests are
      written out ([""] is falsy, [null] and [undefined] are nullish).
    - Built-ins whose result the code only passes along ([JSON.stringify],
      the clock and random source behind [generateId], the environment flag
      [APIPOST_INLINE_COMMENTS]) are fields of the class [Runtime].
    - The functions that start with [if (!Array.isArray(x)) return ...] are
      embedded on their array case: their argument is a list.
    - Example values are data.  The source stores the example object of a
      field in the document by reference, so a later field whose path runs
      through that object extends it in place; the synthesized document is
      the one computed here, and the embedding of the callers
      ([normalizeResponses], [buildBodySection]), which read the fields
      again after a synthesis, is exact for field lists in which no path
      runs through another field's object or array example; the
      properties of what these callers read afterwards are stated for
      lists without object or array examples ([primitiveExamples]).
    - A walk of the synthesizer that stands on an array, or that meets
      the name [__proto__], does things the document model does not follow
      (assignments to indices, to [length], to the prototype); the
      predicate [staysOnObjects] delimits the lists whose synthesis is free
      of both, and the properties that depend on it say so.
    - Besides the functions above, the file embeds the functions around
      them: [checkSecurityPermission], [applyUrlPrefix], [buildDescMap],
      [ensureFieldsHaveDesc], [ensureResponsesFieldsHaveDesc],
      [generateRequestBodyFromParams], [buildBodySection],
      [getChildrenRecursively] and [groupByFolder]. *)

From Stdlib Require Import Ascii String ZArith Lia.
From stdpp Require Import base gmap list strings pretty.

Open Scope string_scope.
Open Scope list_scope.

Set Warnings "-clear-no-such-hyp".

(* ===================================================================== *)
(** ** JavaScript string primitives used by the code *)
(* ===================================================================== *)

Definition isDot (c : ascii) : bool := bool_decide (c = "."%char).

(** [s.split('.')]: never returns the empty list. *)
Fixpoint split_dot (s : string) : list string :=
  match s with
  | EmptyString => [EmptyString]
  | String c r =>
      if isDot c then EmptyString :: split_dot r
      else match split_dot r with
           | h :: t => String c h :: t
           | [] => [String c EmptyString]
           end
  end.

(** [s.endsWith('[]')]. *)
Fixpoint endsWithBrackets (s : string) : bool :=
  match s with
  | EmptyString => false
  | String c r =>
      match r with
      | String d EmptyString =>
          bool_decide (c = "["%char) && bool_decide (d = "]"%char)
      | _ => endsWithBrackets r
      end
  end.

(** [s.slice(0, -2)]: all but the last two characters. *)
Fixpoint dropLast2 (s : string) : string :=
  match s with
  | EmptyString => EmptyString
  | String c r =>
      if (2 <=? String.length r)%nat then String c (dropLast2 r)
      else EmptyString
  end.

(** [s.replace(/\[\]/g, '[0]')]. *)
Fixpoint replaceBrackets (s : string) : string :=
  match s with
  | EmptyString => EmptyString
  | String c r =>
      match r with
      | String d r' =>
          if bool_decide (c = "["%char) && bool_decide (d = "]"%char)
          then "[0]" +:+ replaceBrackets r'
          else String c (replaceBrackets r)
      | EmptyString => String c EmptyString
      end
  end.

(** [s.toLowerCase()] on the ASCII letters (the results are only compared
    with lower-case ASCII words that contain no [k], so the non-ASCII
    characters whose lower case is ASCII play no role). *)
Definition lowerAscii (c : ascii) : ascii :=
  let n := nat_of_ascii c in
  if (65 <=? n)%nat && (n <=? 90)%nat then ascii_of_nat (n + 32) else c.

Fixpoint toLowerCase (s : string) : string :=
  match s with
  | EmptyString => EmptyString
  | String c r => String (lowerAscii c) (toLowerCase r)
  end.

(** [' '.repeat(n)]. *)
Fixpoint spaces (n : nat) : string :=
  match n with
  | O => EmptyString
  | S n' => String " "%char (spaces n')
  end.

(** [parts.join(sep)]. *)
Fixpoint join (sep : string) (parts : list string) : string :=
  match parts with
  | [] => EmptyString
  | [x] => x
  | x :: rest => x +:+ sep +:+ join sep rest
  end.

Definition newline : string := String (ascii_of_nat 10) EmptyString.

(** The double-quote character, as a string. *)
Definition dquote : string := String (ascii_of_nat 34) EmptyString.

(** Truthiness of a string that may be [undefined]. *)
Definition truthyStr (o : option string) : bool :=
  match o with
  | Some s => negb (bool_decide (s = EmptyString))
  | None => false
  end.

(** [a || b] on strings that may be [undefined], with a final default. *)
Definition orStr (a : option string) (b : string) : string :=
  match a with
  | Some s => if bool_decide (s = EmptyString) then b else s
  | None => b
  end.

(* ===================================================================== *)
(** ** JSON values and plain objects *)
(* ===================================================================== *)

(** Values as [JSON.parse] produces them.  The code never computes with a
    number, it only stores and prints it, so integers stand for numbers. *)
#[warnings="-register-all"]
Inductive JSON : Type :=
  | JNull
  | JBool (b : bool)
  | JNum (z : Z)
  | JStr (s : string)
  | JArr (items : list JSON)
  | JObj (entries : list (string * JSON)).

(** [typeof v === 'object' && v !== null]. *)
Definition isObjectLike (v : JSON) : bool :=
  match v with
  | JArr _ | JObj _ => true
  | _ => false
  end.

(** JavaScript truthiness. *)
Definition truthy (v : JSON) : bool :=
  match v with
  | JNull => false
  | JBool b => b
  | JNum z => negb (z =? 0)%Z
  | JStr s => negb (bool_decide (s = EmptyString))
  | JArr _ | JObj _ => true
  end.

(** [o ?? d]: [null] and [undefined] are nullish. *)
Definition coalesce (o : option JSON) (d : JSON) : JSON :=
  match o with
  | None | Some JNull => d
  | Some v => v
  end.

Definition digitOf (c : ascii) : option N :=
  let n := N_of_ascii c in
  if (48 <=? n)%N && (n <=? 57)%N then Some (n - 48)%N else None.

Fixpoint parseDigits (acc : N) (s : string) : option N :=
  match s with
  | EmptyString => Some acc
  | String c r =>
      match digitOf c with
      | Some d => parseDigits (acc * 10 + d)%N r
      | None => None
      end
  end.

(** A property name is an array index when it is the canonical decimal
    form of an integer below 2^32 - 1; such keys are listed first, in
    ascending order, by [Object.keys]. *)
Definition arrayIndex (k : string) : option N :=
  match k with
  | EmptyString => None
  | String c r =>
      if bool_decide (c = "0"%char)
      then (if bool_decide (r = EmptyString) then Some 0%N else None)
      else match parseDigits 0 k with
           | Some n => if (n <? 4294967295)%N then Some n else None
           | None => None
           end
  end.

Fixpoint obj_get (entries : list (string * JSON)) (k : string) : option JSON :=
  match entries with
  | [] => None
  | (k', v) :: rest => if bool_decide (k' = k) then Some v else obj_get rest k
  end.

Fixpoint obj_replace (entries : list (string * JSON)) (k : string) (v : JSON)
  : list (string * JSON) :=
  match entries with
  | [] => []
  | (k', v') :: rest =>
      if bool_decide (k' = k) then (k, v) :: rest
      else (k', v') :: obj_replace rest k v
  end.

Fixpoint obj_insert_index (n : N) (k : string) (v : JSON)
    (entries : list (string * JSON)) : list (string * JSON) :=
  match entries with
  | [] => [(k, v)]
  | (k', v') :: rest =>
      match arrayIndex k' with
      | Some n' =>
          if (n' <? n)%N then (k', v') :: obj_insert_index n k v rest
          else (k, v) :: entries
      | None => (k, v) :: entries
      end
  end.

(** [obj[k] = v] on a plain object: an existing key keeps its place. *)
Definition obj_set (entries : list (string * JSON)) (k : string) (v : JSON)
  : list (string * JSON) :=
  match obj_get entries k with
  | Some _ => obj_replace entries k v
  | None =>
      match arrayIndex k with
      | Some n => obj_insert_index n k v entries
      | None => entries ++ [(k, v)]
      end
  end.

(** [cur[k]] where [cur] is the container the synthesizer stands on.  When
    an example value put an array there, [k] names an expando property of
    that array: such properties are never rendered, so the walk below them
    is detached from the document (segment names that are array indices or
    [length] on such an array, and the name [__proto__] on any container,
    are outside this model; inherited methods such as [constructor] are
    functions and are treated by the code like a missing property).  The
    two functions are exact on plain objects and names other than
    [__proto__]; the predicate [staysOnObjects] below says of a field list
    that its synthesis uses them there only, and the properties that
    depend on more than that carry it as a hypothesis. *)
Definition js_get (cur : JSON) (k : string) : option JSON :=
  match cur with
  | JObj entries => obj_get entries k
  | _ => None
  end.

Definition js_set (cur : JSON) (k : string) (v : JSON) : JSON :=
  match cur with
  | JObj entries => JObj (obj_set entries k v)
  | _ => cur
  end.

(* ===================================================================== *)
(** ** Runtime services *)
(* ===================================================================== *)

(** What the code takes from its environment.  [generateId n] is the id
    returned by the [n]-th call of [generateId()] (time plus a random
    offset, in hexadecimal). *)
Class Runtime : Type := {
  JSON_stringify : JSON -> string;
  JSON_stringify_indent4 : JSON -> string;
  generateId : nat -> string;
  APIPOST_INLINE_COMMENTS : bool
}.

(** Functions that may [throw]. *)
Inductive result (A : Type) : Type :=
  | Ok (a : A)
  | Throw (msg : string).
Arguments Ok {A} a.
Arguments Throw {A} msg.

(* ===================================================================== *)
(** ** Field lists *)
(* ===================================================================== *)

(** One entry of a field list, with every property the code reads.  The
    entries are objects (a [null] entry is skipped by every function
    below and is left out of the model). *)
Record Field : Type := mkField {
  key : option string;
  type : option string;
  field_type : option string;
  required : bool;
  desc : option string;
  description : option string;
  example : option JSON;
  value : option JSON;
  is_checked : option Z;
  not_null : option Z;
  schema : option JSON;
  autoParent : bool
}.

(** [!!field.key]. *)
Definition hasKey (f : Field) : bool := truthyStr (key f).

(** [String(field.key)] for a field that has a key. *)
Definition keyOf (f : Field) : string := default EmptyString (key f).

(** The object literal pushed by [ensureParent]. *)
Definition autoParentField (currentPath : string) (isArray : bool) : Field :=
  {| key := Some currentPath;
     type := Some (if isArray then "array" else "object");
     field_type := None;
     required := false;
     desc := Some EmptyString;
     description := None;
     example := None;
     value := None;
     is_checked := None;
     not_null := None;
     schema := None;
     autoParent := true |}.

(** State of one expansion: the [result] array and the [seenKeys] set. *)
Definition ExpandState : Type := (list Field * gset string)%type.

(** One round of the [segments.forEach] callback of [ensureParent]. *)
Definition ensureStep (userKeys : gset string) (currentPath : string)
    (isArray notLast : bool) (st : ExpandState) : ExpandState :=
  if bool_decide (currentPath ∈ userKeys) then st
  else if bool_decide (currentPath ∈ st.2) then st
  else (if notLast then st.1 ++ [autoParentField currentPath isArray] else st.1,
        {[currentPath]} ∪ st.2).

(** [cleanSeg] of a segment. *)
Definition cleanSeg (seg : string) : string :=
  if endsWithBrackets seg then dropLast2 seg else seg.

(** The new [currentPath]. *)
Definition extendPath (currentPath seg : string) : string :=
  if bool_decide (currentPath = EmptyString) then cleanSeg seg
  else currentPath +:+ "." +:+ cleanSeg seg.

(** The loop of [ensureParent] over the remaining segments. *)
Fixpoint ensureParent_go (userKeys : gset string) (currentPath : string)
    (segments : list string) (st : ExpandState) : ExpandState :=
  match segments with
  | [] => st
  | seg :: rest =>
      let isArray := endsWithBrackets seg in
      let currentPath' := extendPath currentPath seg in
      let notLast := negb (bool_decide (rest = [])) in
      ensureParent_go userKeys currentPath' rest
        (ensureStep userKeys currentPath' isArray notLast st)
  end.

Definition ensureParent (userKeys : gset string) (keyPath : string)
    (st : ExpandState) : ExpandState :=
  ensureParent_go userKeys EmptyString (split_dot keyPath) st.

(** The body of [fields.forEach] in [expandFieldListWithParents]. *)
Definition expandStep (userKeys : gset string) (st : ExpandState)
    (field : Field) : ExpandState :=
  if negb (hasKey field) then st
  else
    let st1 := ensureParent userKeys (keyOf field) st in
    if bool_decide (keyOf field ∈ st1.2)
    then (st1.1 ++ [field], st1.2)
    else (st1.1 ++ [field], {[keyOf field]} ∪ st1.2).

Definition userKeysOf (fields : list Field) : gset string :=
  list_to_set (map keyOf (filter (fun f => hasKey f = true) fields)).

Definition expandFieldListWithParents (fields : list Field) : list Field :=
  (fold_left (expandStep (userKeysOf fields)) fields ([], ∅)).1.

(* ===================================================================== *)
(** ** Description index and annotated renderer *)
(* ===================================================================== *)

(** [field.desc || field.description], [None] when the result is falsy. *)
Definition descOf (f : Field) : option string :=
  if truthyStr (desc f) then desc f
  else if truthyStr (description f) then description f
  else None.

Definition buildDescMap (fields : list Field) : gmap string string :=
  fold_left
    (fun map field =>
       if negb (hasKey field) then map
       else match descOf field with
            | Some d => <[replaceBrackets (keyOf field) := d]> map
            | None => map
            end)
    fields ∅.

(** The trailing comment of a rendered child. *)
Definition commentFor (descMap : gmap string string) (childPath : string)
  : string :=
  match descMap !! childPath with
  | Some d => if bool_decide (d = EmptyString) then EmptyString else " // " +:+ d
  | None => EmptyString
  end.

Section Renderer.
Context `{Runtime}.

Fixpoint stringifyWithComments (value : JSON) (descMap : gmap string string)
    (path : string) (indent level : nat) : string :=
  let pad := fun lvl : nat => spaces (lvl * indent) in
  match value with
  | JArr items =>
      match items with
      | [] => "[]"
      | _ =>
          let rendered :=
            (fix each (l : list JSON) (index : nat) : list string :=
               match l with
               | [] => []
               | item :: rest =>
                   let childPath := path +:+ "[" +:+ pretty index +:+ "]" in
                   let childStr :=
                     stringifyWithComments item descMap childPath indent
                       (level + 1) in
                   (pad (level + 1) +:+ childStr
                      +:+ commentFor descMap childPath)
                     :: each rest (S index)
               end) items 0%nat in
          "[" +:+ newline +:+ join ("," +:+ newline) rendered
            +:+ newline +:+ pad level +:+ "]"
      end
  | JObj entries =>
      let rendered :=
        (fix each (l : list (string * JSON)) : list string :=
           match l with
           | [] => []
           | (k, child) :: rest =>
               let childPath :=
                 if bool_decide (path = EmptyString) then k
                 else path +:+ "." +:+ k in
               let childStr :=
                 stringifyWithComments child descMap childPath indent
                   (level + 1) in
               (pad (level + 1) +:+ dquote +:+ k +:+ dquote +:+ ": " +:+ childStr
                  +:+ commentFor descMap childPath)
                 :: each rest
           end) entries in
      "{" +:+ newline +:+ join ("," +:+ newline) rendered
        +:+ newline +:+ pad level +:+ "}"
  | _ => JSON_stringify value
  end.
End Renderer.

(* ===================================================================== *)
(** ** Document synthesizer *)
(* ===================================================================== *)

Definition defaultValueByType (type : option string) : JSON :=
  let t := toLowerCase (orStr type EmptyString) in
  if bool_decide (t = "integer") || bool_decide (t = "number") then JNum 0
  else if bool_decide (t = "boolean") then JBool false
  else if bool_decide (t = "array") then JArr []
  else if bool_decide (t = "object") then JObj []
  else if bool_decide (t = "null") then JNull
  else JStr EmptyString.

(** [field.example ?? field.value ?? defaultValueByType(field.type)]. *)
Definition leafValue (field : Field) : JSON :=
  coalesce (example field)
    (coalesce (value field) (defaultValueByType (type field))).

(** The [{ key, isArray }] records of a path. *)
Definition pathSegments (path : string) : list (string * bool) :=
  map (fun seg =>
         if endsWithBrackets seg then (dropLast2 seg, true) else (seg, false))
      (split_dot path).

(** The container to descend into: what is there when it is an object or
    an array, a fresh object otherwise. *)
Definition descendInto (o : option JSON) : JSON :=
  match o with
  | Some v => if isObjectLike v then v else JObj []
  | None => JObj []
  end.

(** The [segments.forEach] walk, as the update it performs on [current]. *)
Fixpoint setPath (current : JSON) (segments : list (string * bool))
    (val : JSON) : JSON :=
  match segments with
  | [] => current
  | (k, isArray) :: rest =>
      if isArray then
        let arr0 := match js_get current k with
                    | Some (JArr l) => l
                    | _ => []
                    end in
        let arr := match arr0 with
                   | [] => [JObj []]
                   | _ => arr0
                   end in
        match rest with
        | [] => js_set current k (JArr (val :: tail arr))
        | _ =>
            js_set current k
              (JArr (setPath (descendInto (head arr)) rest val :: tail arr))
        end
      else
        match rest with
        | [] => js_set current k val
        | _ =>
            js_set current k
              (setPath (descendInto (js_get current k)) rest val)
        end
  end.

Definition buildJsonFromFieldList (fields : list Field) : JSON :=
  fold_left
    (fun root field =>
       if autoParent field then root
       else if negb (hasKey field) then root
       else setPath root (pathSegments (keyOf field)) (leafValue field))
    fields (JObj []).

(* ===================================================================== *)
(** ** Parameter projector *)
(* ===================================================================== *)

Record Param : Type := mkParam {
  param_id : string;
  p_description : string;
  p_field_type : string;
  p_is_checked : Z;
  p_key : option string;
  p_not_null : Z;
  p_value : JSON;
  p_schema : JSON
}.

(** [schema || d]. *)
Definition orJSON (o : option JSON) (d : JSON) : JSON :=
  match o with
  | Some v => if truthy v then v else d
  | None => d
  end.

(** The object literal built for one [param]; [id] is what [generateId()]
    returned for it. *)
Definition convertParam (id : string) (param : Field) : Param :=
  {| param_id := id;
     p_description := orStr (desc param) (orStr (description param) EmptyString);
     p_field_type := orStr (type param) (orStr (field_type param) "string");
     p_is_checked :=
       if autoParent param then 0%Z
       else if required param then 1%Z
       else default 0%Z (is_checked param);
     p_key := key param;
     p_not_null :=
       if autoParent param then 0%Z
       else if required param then 1%Z
       else default 0%Z (not_null param);
     p_value :=
       if autoParent param then JStr EmptyString
       else coalesce (example param) (coalesce (value param) (JStr EmptyString));
     p_schema :=
       orJSON (schema param)
         (JObj [("type", JStr (orStr (type param) "string"))]) |}.

Section Projector.
Context `{Runtime}.

(** [paramsList.map(...)], the [clock]-th call of [generateId] serving
    the first element. *)
Fixpoint convertParams (clock : nat) (paramsList : list Field) : list Param :=
  match paramsList with
  | [] => []
  | param :: rest =>
      convertParam (generateId clock) param :: convertParams (S clock) rest
  end.
End Projector.

(* ===================================================================== *)
(** ** Response-set normalizer *)
(* ===================================================================== *)

(** One response item, in the simplified form ([fields], [status], [name],
    [schema]) or in ApiPost's own form ([example_id], [raw], [expect], ...).
    The three marker properties are [None] exactly when they are
    [undefined].  [fields] is [None] when it is missing or not an array. *)
Record Resp : Type := mkResp {
  example_id : option JSON;
  raw : option JSON;
  raw_parameter : option (list Param);
  headers : option (list JSON);
  expect : option JSON;
  fields : option (list Field);
  status : option Z;
  r_name : option string;
  r_schema : option JSON
}.

Definition isApiPostResponseExample (resp : Resp) : bool :=
  bool_decide (example_id resp <> None)
  || bool_decide (expect resp <> None)
  || bool_decide (raw resp <> None).

Record Options : Type := mkOptions {
  fallbackExamples : list Resp;
  useDefaultWhenMissing : bool;
  keepEmpty : bool;
  isCheckResult : Z
}.

Record Normalized : Type := mkNormalized {
  n_example : list Resp;
  is_check_result : Z
}.

(** [generateResponseData(undefined)]. *)
Definition defaultResponseData : JSON :=
  JObj [("code", JNum 0); ("message", JStr "操作成功"); ("data", JObj [])].

Definition emptyFieldsError : string :=
  "responses.fields 必填且不能为空，data 字段已禁用，请提供字段列表".

Section Normalizer.
Context `{Runtime}.

Definition defaultExample : Resp :=
  {| example_id := Some (JStr "1");
     raw := Some (JStr (JSON_stringify_indent4 defaultResponseData));
     raw_parameter := Some [];
     headers := Some [];
     expect := Some (JObj
       [("code", JStr "200");
        ("content_type", JStr "application/json");
        ("is_default", JNum 1);
        ("mock", JStr (JSON_stringify defaultResponseData));
        ("name", JStr "成功响应");
        ("schema", JObj [("type", JStr "object"); ("properties", JObj [])]);
        ("verify_type", JStr "schema");
        ("sleep", JNum 0)]);
     fields := None;
     status := None;
     r_name := None;
     r_schema := None |}.


(** The immediately invoked function that computes [raw]. *)
Definition rawOf (resp : Resp) : result string :=
  let fields := default [] (fields resp) in
  if bool_decide (length fields = 0%nat) then Throw emptyFieldsError
  else
    let expandedFields := expandFieldListWithParents fields in
    let descMap := buildDescMap expandedFields in
    let rawData := buildJsonFromFieldList expandedFields in
    Ok (if APIPOST_INLINE_COMMENTS
           && negb (bool_decide (length expandedFields = 0%nat))
        then stringifyWithComments rawData descMap EmptyString 4 0
        else JSON_stringify_indent4 rawData).

(** The callback of [responses.map]: the converted item and the number of
    ids it drew.  The three synthesis results ([raw], the [value] column of
    [raw_parameter], [mock]) are computed from the field list as given; in
    the source the first synthesis may already have extended an object
    example in place (for instance [a.b.c] declared before [a.b] when both
    [a] and [a.b] carry object examples), which the later two then see. *)
Definition convertResponse (clock index : nat) (resp : Resp)
  : result (Resp * nat) :=
  match rawOf resp with
  | Throw msg => Throw msg
  | Ok rawText =>
      let expanded := expandFieldListWithParents (default [] (fields resp)) in
      Ok ({| example_id := Some (JStr (pretty (index + 1)%nat));
             raw := Some (JStr rawText);
             raw_parameter := Some (convertParams clock expanded);
             headers := Some [];
             expect := Some (JObj
               [("code", JStr (pretty (default 200%Z (status resp))));
                ("content_type", JStr "application/json");
                ("is_default", JNum (if bool_decide (index = 0%nat) then 1 else -1));
                ("mock", JStr (JSON_stringify (buildJsonFromFieldList expanded)));
                ("name", JStr (orStr (r_name resp)
                   (if bool_decide (index = 0%nat) then "成功响应"
                    else "响应" +:+ pretty (index + 1)%nat)));
                ("schema", orJSON (r_schema resp)
                   (JObj [("type", JStr "object"); ("properties", JObj [])]));
                ("verify_type", JStr "schema");
                ("sleep", JNum 0)]);
             fields := None;
             status := None;
             r_name := None;
             r_schema := None |},
          length expanded)
  end.

(** [responses.map(...)]: the first throwing item aborts the whole map. *)
Fixpoint convertResponses (clock index : nat) (responses : list Resp)
  : result (list Resp) :=
  match responses with
  | [] => Ok []
  | resp :: rest =>
      match convertResponse clock index resp with
      | Throw msg => Throw msg
      | Ok (converted, drawn) =>
          match convertResponses (clock + drawn) (S index) rest with
          | Throw msg => Throw msg
          | Ok others => Ok (converted :: others)
          end
      end
  end.

(** [responses] is [None] when the argument is not an array. *)
Definition normalizeResponses (clock : nat) (responses : option (list Resp))
    (options : Options) : result Normalized :=
  match responses with
  | Some [] =>
      Ok {| n_example := if keepEmpty options then []
                         else fallbackExamples options;
            is_check_result := isCheckResult options |}
  | None =>
      if negb (bool_decide (length (fallbackExamples options) = 0%nat))
      then Ok {| n_example := fallbackExamples options;
                 is_check_result := isCheckResult options |}
      else if negb (useDefaultWhenMissing options)
      then Ok {| n_example := []; is_check_result := isCheckResult options |}
      else Ok {| n_example := [defaultExample];
                 is_check_result := isCheckResult options |}
  | Some responses =>
      if existsb isApiPostResponseExample responses
      then Ok {| n_example := responses;
                 is_check_result := isCheckResult options |}
      else match convertResponses clock 0 responses with
           | Throw msg => Throw msg
           | Ok converted =>
               Ok {| n_example := converted;
                     is_check_result := isCheckResult options |}
           end
  end.
End Normalizer.

(* ===================================================================== *)
(** ** Hierarchy resolver *)
(* ===================================================================== *)

(** A project item, with the properties [buildPathMap] reads. *)
Record Item : Type := mkItem {
  target_id : string;
  parent_id : option string;
  name : string
}.

#[global] Instance Item_eq_dec : EqDecision Item.
Proof. solve_decision. Defined.

(** The parent to climb to: [item.parent_id && item.parent_id !== '0']. *)
Definition parentRef (item : Item) : option string :=
  match parent_id item with
  | Some p =>
      if bool_decide (p = EmptyString) || bool_decide (p = "0") then None
      else Some p
  | None => None
  end.

(** What [buildPath] reads and writes: the memo table [pathMap], the
    [visited] set shared by one climb, and the warnings printed so far. *)
Record PathState : Type := mkPathState {
  pathMap : gmap string (list string);
  visited : gset string;
  warnings : list string
}.

Definition buildItemMap (allItems : list Item) : gmap string Item :=
  fold_left (fun m item => <[target_id item := item]> m) allItems ∅.

(** [buildPath(targetId, visited)].  The recursion climbs parent links; the
    fuel bounds the number of nested calls and [None] means it ran out. *)
Fixpoint buildPath (fuel : nat) (itemMap : gmap string Item)
    (targetId : string) (st : PathState) : option (list string * PathState) :=
  match fuel with
  | O => None
  | S fuel' =>
      match pathMap st !! targetId with
      | Some path => Some (path, st)
      | None =>
          if bool_decide (targetId ∈ visited st)
          then Some ([], {| pathMap := pathMap st;
                            visited := visited st;
                            warnings := warnings st
                              ++ ["检测到循环引用: " +:+ targetId] |})
          else
            match itemMap !! targetId with
            | None => Some ([], st)
            | Some item =>
                let st1 := {| pathMap := pathMap st;
                              visited := {[targetId]} ∪ visited st;
                              warnings := warnings st |} in
                let climbed :=
                  match parentRef item with
                  | Some parent => buildPath fuel' itemMap parent st1
                  | None => Some ([], st1)
                  end in
                match climbed with
                | None => None
                | Some (parentPath, st2) =>
                    let path := parentPath ++ [name item] in
                    Some (path,
                          {| pathMap := <[targetId := path]> (pathMap st2);
                             visited := visited st2 ∖ {[targetId]};
                             warnings := warnings st2 |})
                end
            end
      end
  end.

(** The final [allItems.forEach]: every top-level call gets a fresh
    [visited] set (the default argument). *)
Definition buildAll (fuel : nat) (itemMap : gmap string Item)
    (items : list Item) (st : PathState) : option PathState :=
  fold_left
    (fun acc item =>
       match acc with
       | None => None
       | Some st =>
           match buildPath fuel itemMap (target_id item)
                   {| pathMap := pathMap st; visited := ∅;
                      warnings := warnings st |} with
           | Some (_, st') => Some st'
           | None => None
           end
       end)
    items (Some st).

Definition initialPathState : PathState :=
  {| pathMap := ∅; visited := ∅; warnings := [] |}.

(** The whole run, with its warnings. *)
Definition buildPathMap_run (allItems : list Item) : option PathState :=
  buildAll (S (length allItems)) (buildItemMap allItems) allItems
    initialPathState.

Definition buildPathMap (allItems : list Item)
  : option (gmap string (list string)) :=
  pathMap <$> buildPathMap_run allItems.

(* ===================================================================== *)
(** ** Specification-side notions for the hierarchy resolver *)
(* ===================================================================== *)

Definition enterNode (targetId : string) (st : PathState) : PathState :=
  {| pathMap := pathMap st;
     visited := {[targetId]} ∪ visited st;
     warnings := warnings st |}.

Definition leaveNode (targetId : string) (path : list string)
    (st : PathState) : PathState :=
  {| pathMap := <[targetId := path]> (pathMap st);
     visited := visited st ∖ {[targetId]};
     warnings := warnings st |}.

Definition warnCycle (targetId : string) (st : PathState) : PathState :=
  {| pathMap := pathMap st;
     visited := visited st;
     warnings := warnings st ++ ["检测到循环引用: " +:+ targetId] |}.

(** The calls of [buildPath] as a big-step relation: one constructor per
    way through the function body. *)
Inductive BuildPath (itemMap : gmap string Item)
  : string -> PathState -> list string -> PathState -> Prop :=
  | BP_memo t st path :
      pathMap st !! t = Some path ->
      BuildPath itemMap t st path st
  | BP_cycle t st :
      pathMap st !! t = None -> t ∈ visited st ->
      BuildPath itemMap t st [] (warnCycle t st)
  | BP_missing t st :
      pathMap st !! t = None -> t ∉ visited st -> itemMap !! t = None ->
      BuildPath itemMap t st [] st
  | BP_root t st item :
      pathMap st !! t = None -> t ∉ visited st ->
      itemMap !! t = Some item -> parentRef item = None ->
      BuildPath itemMap t st [name item]
        (leaveNode t [name item] (enterNode t st))
  | BP_climb t st item parent parentPath st2 :
      pathMap st !! t = None -> t ∉ visited st ->
      itemMap !! t = Some item -> parentRef item = Some parent ->
      BuildPath itemMap parent (enterNode t st) parentPath st2 ->
      BuildPath itemMap t st (parentPath ++ [name item])
        (leaveNode t (parentPath ++ [name item]) st2).

(** The root-to-node name chain of a node whose parent links end: at a
    node without parent reference ([parent_id] missing, empty or ['0']) or
    at one whose parent is not part of the collection.  A node on a parent
    cycle, or below one, has no such chain. *)
Inductive rootPath (itemMap : gmap string Item)
  : string -> list string -> Prop :=
  | rootPath_top t item :
      itemMap !! t = Some item -> parentRef item = None ->
      rootPath itemMap t [name item]
  | rootPath_orphan t item parent :
      itemMap !! t = Some item -> parentRef item = Some parent ->
      itemMap !! parent = None ->
      rootPath itemMap t [name item]
  | rootPath_child t item parent parentPath :
      itemMap !! t = Some item -> parentRef item = Some parent ->
      rootPath itemMap parent parentPath ->
      rootPath itemMap t (parentPath ++ [name item]).

(* ===================================================================== *)
(** ** Notions used to state the properties *)
(* ===================================================================== *)

(** Shape of the memo table: keys are known ids and every path ends
    with the name registered under its key. *)
Definition wellShaped (itemMap : gmap string Item)
    (pm : gmap string (list string)) : Prop :=
  forall k path, pm !! k = Some path ->
    exists item pre, itemMap !! k = Some item /\ path = pre ++ [name item].

(** The memo table is sound for nodes that have a root path. *)
Definition soundFor (itemMap : gmap string Item)
    (pm : gmap string (list string)) : Prop :=
  (forall k, is_Some (pm !! k) -> is_Some (itemMap !! k))
  /\ (forall k q v, rootPath itemMap k q -> pm !! k = Some v -> v = q).

(** Every node on the climb lies strictly below the node asked for. *)
Definition belowAll (itemMap : gmap string Item) (t : string)
    (climb : gset string) : Prop :=
  forall p, rootPath itemMap t p ->
    forall v, v ∈ climb ->
      exists q, rootPath itemMap v q /\ length p < length q.

(** What the memo table can hold for the two nodes of the cycle. *)
Definition cycleState (A B : Item) (pm : gmap string (list string)) : Prop :=
  (pm !! target_id A = None /\ pm !! target_id B = None)
  \/ (pm !! target_id A = Some [name B; name A]
      /\ pm !! target_id B = Some [name B])
  \/ (pm !! target_id A = Some [name A]
      /\ pm !! target_id B = Some [name A; name B]).

Definition freshClimb (st : PathState) : PathState :=
  {| pathMap := pathMap st; visited := ∅; warnings := warnings st |}.

(** The successive values of [currentPath] while [ensureParent] walks the
    segments: the prefixes of a path, array markers stripped. *)
Fixpoint pathsFrom (currentPath : string) (segments : list string)
  : list string :=
  match segments with
  | [] => []
  | seg :: rest =>
      extendPath currentPath seg :: pathsFrom (extendPath currentPath seg) rest
  end.

Definition prefixPaths (keyPath : string) : list string :=
  pathsFrom EmptyString (split_dot keyPath).

(** [q] is a proper prefix of [keyPath]: the value of [currentPath] at a
    segment that is not the last one. *)
Definition properPrefix (q keyPath : string) : Prop :=
  exists j, prefixPaths keyPath !! j = Some q
            /\ S j < length (prefixPaths keyPath).

(** The whole path with its array markers stripped: the last value of
    [currentPath]. *)
Definition strippedPath (keyPath : string) : string :=
  default EmptyString (last (prefixPaths keyPath)).

(** A well-formed path: no segment is empty once its marker is stripped,
    and no segment carries a second marker under the first. *)
Definition plainSegment (c : string) : bool :=
  negb (bool_decide (c = EmptyString)) && negb (endsWithBrackets c).

Definition wellFormedKey (keyPath : string) : bool :=
  forallb (fun seg => plainSegment (cleanSeg seg)) (split_dot keyPath).

Definition wellFormedFields (fields : list Field) : bool :=
  forallb (fun f => negb (hasKey f) || wellFormedKey (keyOf f)) fields.



Fixpoint noDot (s : string) : bool :=
  match s with
  | EmptyString => true
  | String c r => negb (isDot c) && noDot r
  end.

(** What one call of [ensureParent] does, given the prefixes [paths] it
    walks: [autos] is what it appends to [result] and [seen'] the new
    [seenKeys]. *)
Definition blockSpec (userKeys seen : gset string) (paths : list string)
    (autos : list Field) (seen' : gset string) : Prop :=
  seen ⊆ seen'
  /\ (forall p, p ∈ paths -> p ∈ userKeys \/ p ∈ seen')
  /\ (forall q, q ∈ seen' -> q ∈ seen \/ ((q ∈ paths) /\ (q ∉ userKeys)))
  /\ (forall i x, autos !! i = Some x ->
        exists p a j,
          x = autoParentField p a /\ (p ∉ userKeys) /\ (p ∉ seen)
          /\ paths !! j = Some p /\ S j < length paths
          /\ forall j' p', j' < j -> paths !! j' = Some p' ->
               p' ∈ userKeys \/ p' ∈ seen
               \/ exists i' y, i' < i /\ autos !! i' = Some y /\ keyOf y = p')
  /\ (forall j p, paths !! j = Some p -> S j < length paths ->
        p ∈ userKeys \/ p ∈ seen \/ exists y, y ∈ autos /\ keyOf y = p)
  /\ NoDup (map keyOf autos).

Definition expandFrom (userKeys : gset string) (st : ExpandState)
    (fields : list Field) : ExpandState :=
  fold_left (expandStep userKeys) fields st.

(** The output as the caller's fields with auto-parent records inserted. *)
Inductive interleaved : list Field -> list Field -> Prop :=
  | interleaved_nil : interleaved [] []
  | interleaved_keep x user out :
      interleaved user out -> interleaved (x :: user) (x :: out)
  | interleaved_insert p a user out :
      interleaved user out -> interleaved user (autoParentField p a :: out).

(** What holds of [result] and [seenKeys] between two fields of a
    well-formed list: seen paths are backed by an emitted field, proper
    prefixes are declared or emitted earlier, undeclared keys are emitted
    once, and every emitted field has a key. *)
Definition covered (userKeys : gset string) (st : ExpandState) : Prop :=
  (forall q, q ∈ st.2 ->
     q ∈ userKeys \/ exists y, y ∈ st.1 /\ strippedPath (keyOf y) = q)
  /\ (forall i x q, st.1 !! i = Some x -> properPrefix q (keyOf x) ->
        q ∈ userKeys
        \/ exists j y, j < i /\ st.1 !! j = Some y
                       /\ strippedPath (keyOf y) = q)
  /\ (forall y, y ∈ st.1 -> keyOf y ∈ userKeys \/ keyOf y ∈ st.2)
  /\ NoDup (filter (fun q => q ∉ userKeys) (map keyOf st.1))
  /\ (forall y, y ∈ st.1 -> hasKey y = true).


(* ===================================================================== *)
(** ** Sample inputs *)
(* ===================================================================== *)

(** A collection with the cycle [A <-> B], a node [E] hanging below the
    cycle and the acyclic chain [C <- D]. *)
Definition cyclicItems : list Item :=
  [ {| target_id := "E"; parent_id := Some "B"; name := "e" |};
    {| target_id := "A"; parent_id := Some "B"; name := "a" |};
    {| target_id := "B"; parent_id := Some "A"; name := "b" |};
    {| target_id := "C"; parent_id := Some "0"; name := "c" |};
    {| target_id := "D"; parent_id := Some "C"; name := "d" |} ].

(** The smallest cyclic collection: [A.parent_id = B], [B.parent_id = A]. *)
Definition twoCycle : list Item :=
  [ {| target_id := "A"; parent_id := Some "B"; name := "a" |};
    {| target_id := "B"; parent_id := Some "A"; name := "b" |} ].

(** Two nodes that share the id [X]. *)
Definition duplicateIds : list Item :=
  [ {| target_id := "X"; parent_id := None; name := "x1" |};
    {| target_id := "X"; parent_id := None; name := "x2" |} ].

(** A field as callers write it: [{ key, desc, example }]. *)
Definition userField (k d : string) (ex : option JSON) : Field :=
  {| key := Some k; type := None; field_type := None; required := false;
     desc := Some d; description := None; example := ex; value := None;
     is_checked := None; not_null := None; schema := None;
     autoParent := false |}.

(** A runtime to run the functions with: a compact printer without string
    escapes stands for [JSON.stringify], ids are call numbers. *)
Fixpoint showJSON (v : JSON) : string :=
  match v with
  | JNull => "null"
  | JBool b => if b then "true" else "false"
  | JNum z => pretty z
  | JStr s => dquote +:+ s +:+ dquote
  | JArr items =>
      "[" +:+ join "," (map showJSON items) +:+ "]"
  | JObj entries =>
      "{" +:+ join ","
        ((fix each (l : list (string * JSON)) : list string :=
            match l with
            | [] => []
            | (k, child) :: rest =>
                (dquote +:+ k +:+ dquote +:+ ":" +:+ showJSON child) :: each rest
            end) entries) +:+ "}"
  end.

Definition sampleRuntime : Runtime :=
  {| JSON_stringify := showJSON;
     JSON_stringify_indent4 := showJSON;
     generateId := fun n => "id" +:+ pretty n;
     APIPOST_INLINE_COMMENTS := true |}.

Definition defaultOptions : Options :=
  {| fallbackExamples := []; useDefaultWhenMissing := true;
     keepEmpty := true; isCheckResult := 1 |}.

(** A response in the simplified form. *)
Definition simpleResponse (fs : option (list Field)) : Resp :=
  {| example_id := None; raw := None; raw_parameter := None; headers := None;
     expect := None; fields := fs; status := None; r_name := None;
     r_schema := None |}.



(** A child declared before its parent: [a.b], then [a]. *)
Definition childBeforeParent : list Field :=
  [userField "a.b" "leaf" (Some (JNum 1)); userField "a" "container" None].

(** A body field of type [object] that has no example. *)
Definition objectField : Field :=
  {| key := Some "data"; type := Some "object"; field_type := None;
     required := false; desc := Some "payload"; description := None;
     example := None; value := None; is_checked := None; not_null := None;
     schema := None; autoParent := false |}.

(** A segment with two array markers, and the one-marker path declared
    after it. *)
Definition doubleMarker : list Field :=
  [userField "a[][].b.c" "leaf" None; userField "a[]" "rows" None].

(** A path that starts with a dot: its first segment is empty. *)
Definition leadingDot : list Field := [userField ".a.b" "leaf" None].

(* ===================================================================== *)
(** ** Security mode and URL prefix *)
(* ===================================================================== *)

(** The operations the callers ask about (['read' | 'write' | 'delete']). *)
Inductive Operation : Type := OpRead | OpWrite | OpDelete.

(** [checkSecurityPermission(operation)] under the mode
    [APIPOST_SECURITY_MODE]: the answer, and the lines it logs. *)
Definition checkSecurityPermission (APIPOST_SECURITY_MODE : string)
    (operation : Operation) : bool * list string :=
  let mode := toLowerCase APIPOST_SECURITY_MODE in
  let isRead := match operation with OpRead => true | _ => false end in
  let isWrite := match operation with OpWrite => true | _ => false end in
  if bool_decide (mode = "readonly") then (isRead, [])
  else if bool_decide (mode = "limited") then (isRead || isWrite, [])
  else if bool_decide (mode = "full") then (true, [])
  else (isRead,
        ["⚠️ 未知的安全模式: " +:+ APIPOST_SECURITY_MODE
           +:+ ", 默认为只读模式"]).

(** [s.startsWith(p)]. *)
Fixpoint startsWith (s p : string) {struct p} : bool :=
  match p with
  | EmptyString => true
  | String c p' =>
      match s with
      | EmptyString => false
      | String d s' => bool_decide (d = c) && startsWith s' p'
      end
  end.

(** [s.endsWith('/')]. *)
Fixpoint endsWithSlash (s : string) : bool :=
  match s with
  | EmptyString => false
  | String c EmptyString => bool_decide (c = "/"%char)
  | String _ r => endsWithSlash r
  end.

(** [s.slice(0, -1)]. *)
Fixpoint dropLast1 (s : string) : string :=
  match s with
  | EmptyString => EmptyString
  | String c EmptyString => EmptyString
  | String c r => String c (dropLast1 r)
  end.

(** [applyUrlPrefix(url)] under the prefix [APIPOST_URL_PREFIX]; a missing
    [url] is the empty string. *)
Definition applyUrlPrefix (APIPOST_URL_PREFIX url : string) : string :=
  if bool_decide (url = EmptyString)
     || bool_decide (APIPOST_URL_PREFIX = EmptyString) then url
  else if startsWith url APIPOST_URL_PREFIX then url
  else
    let prefix := if endsWithSlash APIPOST_URL_PREFIX
                  then dropLast1 APIPOST_URL_PREFIX
                  else APIPOST_URL_PREFIX in
    let path := if startsWith url "/" then url else "/" +:+ url in
    prefix +:+ path.

(* ===================================================================== *)
(** ** Validation of field lists and the body section *)
(* ===================================================================== *)

(** [ensureFieldsHaveDesc(list, context)] on an array. *)
Definition ensureFieldsHaveDesc (list : list Field) (context : string)
  : result unit :=
  let missing :=
    filter (fun item => truthyStr (desc item) = false
                        /\ truthyStr (description item) = false) list in
  if bool_decide (length missing = 0%nat) then Ok tt
  else Throw (context +:+ " 缺少 desc，请为每个字段填写 desc").

(** [ensureResponsesFieldsHaveDesc(responses)] on an array: the first
    offending response throws. *)
Fixpoint ensureResponsesFieldsHaveDesc_from (index : nat)
    (responses : list Resp) : result unit :=
  match responses with
  | [] => Ok tt
  | resp :: rest =>
      match fields resp with
      | Some fs =>
          match ensureFieldsHaveDesc fs
                  ("responses[" +:+ pretty index +:+ "].fields") with
          | Throw msg => Throw msg
          | Ok _ => ensureResponsesFieldsHaveDesc_from (S index) rest
          end
      | None =>
          Throw ("responses[" +:+ pretty index +:+ "] 未提供 fields 或格式不正确")
      end
  end.

Definition ensureResponsesFieldsHaveDesc (responses : list Resp)
  : result unit :=
  ensureResponsesFieldsHaveDesc_from 0 responses.

(** A field passes the description check. *)
Definition described (f : Field) : Prop :=
  truthyStr (desc f) = true \/ truthyStr (description f) = true.

(** A response passes the check: it has an array of fields and each of
    them is described. *)
Definition acceptable (resp : Resp) : Prop :=
  exists fs, fields resp = Some fs /\ Forall described fs.

(** [generateRequestBodyFromParams(bodyParams)]. *)
Definition generateRequestBodyFromParams (bodyParams : list Field) : JSON :=
  if bool_decide (length bodyParams = 0%nat) then JObj []
  else buildJsonFromFieldList bodyParams.

(** The properties of the body section that depend on the field list
    ([parameter], [raw_schema] and [binary] are constants). *)
Record BodySection : Type := mkBodySection {
  b_mode : string;
  b_raw : string;
  b_raw_parameter : list Param
}.

Section Body.
Context `{Runtime}.

(** [buildBodySection(bodyParams)] on an array, the [clock]-th call of
    [generateId] serving the first descriptor.  The descriptors are
    computed from the expanded list as given (in the source the synthesis
    that precedes them may have extended an object example in place). *)
Definition buildBodySection (clock : nat) (bodyParams : list Field)
  : BodySection :=
  let hasBody := negb (bool_decide (length bodyParams = 0%nat)) in
  let expandedFields := expandFieldListWithParents bodyParams in
  let rawBody := generateRequestBodyFromParams expandedFields in
  let descMap := buildDescMap expandedFields in
  {| b_mode := if hasBody then "json" else "none";
     b_raw := if hasBody
              then (if APIPOST_INLINE_COMMENTS
                    then stringifyWithComments rawBody descMap EmptyString 4 0
                    else JSON_stringify_indent4 rawBody)
              else EmptyString;
     b_raw_parameter := convertParams clock expandedFields |}.
End Body.

(** Reading a path back from a document: the element [0] of the array at
    an array segment, the property at a plain one. *)
Fixpoint getPath (current : JSON) (segments : list (string * bool))
  : option JSON :=
  match segments with
  | [] => Some current
  | (k, isArray) :: rest =>
      match js_get current k with
      | None => None
      | Some v =>
          if isArray then
            match v with
            | JArr (first :: _) => getPath first rest
            | _ => None
            end
          else getPath v rest
      end
  end.

Definition isPlainObject (v : JSON) : bool :=
  match v with
  | JObj _ => true
  | _ => false
  end.

(** The walk of [segments] from [current] only ever stands on plain
    objects (never on an array that an example value put in the way). *)
Fixpoint walksObjects (current : JSON) (segments : list (string * bool))
  : bool :=
  match segments with
  | [] => true
  | (k, isArray) :: rest =>
      isPlainObject current
      && match rest with
         | [] => true
         | _ =>
             if isArray then
               walksObjects
                 (descendInto
                    (match js_get current k with
                     | Some (JArr l) => head l
                     | _ => None
                     end)) rest
             else walksObjects (descendInto (js_get current k)) rest
         end
  end.

(** A key without structure: one non-empty segment, no array marker at
    its end and none inside. *)
Definition flatKey (k : string) : bool :=
  noDot k && negb (bool_decide (k = EmptyString))
  && negb (endsWithBrackets k) && bool_decide (replaceBrackets k = k).

(** No segment of the path is named [__proto__] (on that name an
    assignment does not create a property). *)
Definition noProtoKey (keyPath : string) : bool :=
  forallb (fun seg => negb (bool_decide (seg.1 = "__proto__")))
    (pathSegments keyPath).

(** The synthesis of [fields] on top of [root] stays on plain objects:
    the walk of every field that is synthesized stands on plain objects
    only, never on an array, and meets no segment named [__proto__].  On
    such lists every assignment of the source creates or replaces an own
    property of a plain object, which is what [js_set] does. *)
Fixpoint staysOnObjectsFrom (root : JSON) (fields : list Field) : bool :=
  match fields with
  | [] => true
  | field :: rest =>
      if autoParent field then staysOnObjectsFrom root rest
      else if negb (hasKey field) then staysOnObjectsFrom root rest
      else
        let segments := pathSegments (keyOf field) in
        noProtoKey (keyOf field) && walksObjects root segments
        && staysOnObjectsFrom (setPath root segments (leafValue field)) rest
  end.

Definition staysOnObjects (fields : list Field) : bool :=
  staysOnObjectsFrom (JObj []) fields.

(** No field carries an object or an array as [example] (or as [value]
    when it has no example): a synthesis has nothing to extend in place,
    so the fields read after it are the fields as given. *)
Definition primitiveExamples (fields : list Field) : bool :=
  forallb (fun f => negb (isObjectLike
                            (coalesce (example f) (coalesce (value f) JNull))))
    fields.

(* ===================================================================== *)
(** ** Listing: descendants and grouping *)
(* ===================================================================== *)

Module Listing.

(** An item of the project list, with the properties the listing
    functions read. *)
Record Entry : Type := mkEntry {
  target_id : string;
  parent_id : option string;
  name : string;
  target_type : string
}.

#[global] Instance Entry_eq_dec : EqDecision Entry.
Proof. solve_decision. Defined.

(** The same item as [buildPathMap] sees it. *)
Definition toItem (e : Entry) : Item :=
  mkItem (target_id e) (parent_id e) (name e).

(** [item.parent_id === parentId]. *)
Definition isChildOf (parentId : string) (item : Entry) : bool :=
  bool_decide (parent_id item = Some parentId).

Definition isFolder (item : Entry) : bool :=
  bool_decide (target_type item = "folder").

(** [maxDepth !== undefined && currentDepth >= maxDepth]. *)
Definition depthReached (maxDepth : option Z) (currentDepth : Z) : bool :=
  match maxDepth with
  | Some d => (d <=? currentDepth)%Z
  | None => false
  end.

(** The [children.forEach] loop of [getChildrenRecursively]: what the
    recursive calls on the folder children push, in order; [below child]
    is the recursive call on [child]. *)
Fixpoint eachBelow (below : Entry -> option (list Entry)) (l : list Entry)
  : option (list Entry) :=
  match l with
  | [] => Some []
  | child :: rest =>
      if isFolder child then
        match below child with
        | None => None
        | Some sub =>
            match eachBelow below rest with
            | None => None
            | Some more => Some (sub ++ more)
            end
        end
      else eachBelow below rest
  end.

(** [getChildrenRecursively(items, parentId, maxDepth, currentDepth)].
    The function has no cycle guard; the fuel bounds the nesting of calls
    and [None] means it ran out. *)
Fixpoint getChildrenRecursively (fuel : nat) (items : list Entry)
    (parentId : string) (maxDepth : option Z) (currentDepth : Z)
  : option (list Entry) :=
  match fuel with
  | O => None
  | S fuel' =>
      if depthReached maxDepth currentDepth then Some []
      else
        let children :=
          filter (fun item => isChildOf parentId item = true) items in
        match eachBelow
                (fun child =>
                   getChildrenRecursively fuel' items (target_id child)
                     maxDepth (currentDepth + 1)%Z)
                children with
        | None => None
        | Some deeper => Some (children ++ deeper)
        end
  end.

(** The property names every plain object inherits from
    [Object.prototype]: [groups[name]] is truthy for them before any
    assignment. *)
Definition inheritedNames : list string :=
  ["constructor"; "__defineGetter__"; "__defineSetter__"; "hasOwnProperty";
   "__lookupGetter__"; "__lookupSetter__"; "isPrototypeOf";
   "propertyIsEnumerable"; "toString"; "valueOf"; "__proto__";
   "toLocaleString"].

Definition buildFolderMap (allItems : list Entry) : gmap string Entry :=
  fold_left (fun m folder => <[target_id folder := folder]> m)
    (filter (fun item => isFolder item = true) allItems) ∅.

(** [parentName] of an item. *)
Definition parentName (folderMap : gmap string Entry) (item : Entry)
  : string :=
  let parentId := orStr (parent_id item) "0" in
  if bool_decide (parentId = "0") then "根目录"
  else orStr (name <$> folderMap !! parentId)
         ("未知目录(" +:+ parentId +:+ ")").

Definition notAFunction : string :=
  "TypeError: groups[parentName].push is not a function".

(** The body of [items.forEach] in [groupByFolder]: [groups] holds the own
    properties of the object. *)
Definition groupStep (folderMap : gmap string Entry)
    (groups : result (gmap string (list Entry))) (item : Entry)
  : result (gmap string (list Entry)) :=
  match groups with
  | Throw msg => Throw msg
  | Ok groups =>
      let label := parentName folderMap item in
      match groups !! label with
      | Some members => Ok (<[label := members ++ [item]]> groups)
      | None =>
          if bool_decide (label ∈ inheritedNames) then Throw notAFunction
          else Ok (<[label := [item]]> groups)
      end
  end.

Definition groupByFolder (items allItems : list Entry)
  : result (gmap string (list Entry)) :=
  fold_left (groupStep (buildFolderMap allItems)) items (Ok ∅).

(** [e] lies [n] levels below [parentId], every item between them being a
    folder. *)
Inductive descendant (items : list Entry) : string -> nat -> Entry -> Prop :=
  | descendant_child parentId e :
      e ∈ items -> parent_id e = Some parentId ->
      descendant items parentId 1 e
  | descendant_deeper parentId child n e :
      child ∈ items -> parent_id child = Some parentId ->
      target_type child = "folder" ->
      descendant items (target_id child) n e ->
      descendant items parentId (S n) e.

(** The members a label gets from [items], after what it had. *)
Definition joinMembers (folderMap : gmap string Entry)
    (had : option (list Entry)) (label : string)
    (items : list Entry) : option (list Entry) :=
  match filter (fun item => parentName folderMap item = label) items with
  | [] => had
  | more => Some (default [] had ++ more)
  end.

End Listing.

(* ===================================================================== *)
(** * Properties *)
(* ===================================================================== *)

(** ** Hierarchy resolver *)

Section HierarchyFacts.
Variable itemMap : gmap string Item.

Lemma buildPath_BuildPath fuel t st path st' :
  buildPath fuel itemMap t st = Some (path, st') ->
  BuildPath itemMap t st path st'.
Proof.
  revert t st path st'.
  induction fuel as [|fuel IH]; intros t st path st' Hrun; [done|].
  simpl in Hrun.
  destruct (pathMap st !! t) as [memo|] eqn:Hmemo.
  { inversion Hrun; subst. by apply BP_memo. }
  case_bool_decide as Hvis.
  { inversion Hrun; subst. by apply (BP_cycle itemMap t st). }
  destruct (itemMap !! t) as [item|] eqn:Hitem.
  2:{ inversion Hrun; subst. by apply BP_missing. }
  destruct (parentRef item) as [parent|] eqn:Hparent.
  - destruct (buildPath fuel itemMap parent _) as [[pp st2]|] eqn:Hrec;
      [|done].
    inversion Hrun; subst.
    eapply BP_climb; eauto.
  - inversion Hrun; subst.
    by apply (BP_root itemMap t st item).
Qed.

(** Enough fuel: the nesting depth is bounded by the number of items
    not yet on the climb. *)
Lemma buildPath_terminates fuel t st :
  size (dom itemMap ∖ visited st) < fuel ->
  is_Some (buildPath fuel itemMap t st).
Proof.
  revert t st.
  induction fuel as [|fuel IH]; intros t st Hfuel; [lia|].
  simpl.
  destruct (pathMap st !! t) as [memo|]; [eauto|].
  case_bool_decide as Hvis; [eauto|].
  destruct (itemMap !! t) as [item|] eqn:Hitem; [|eauto].
  destruct (parentRef item) as [parent|]; [|eauto].
  match goal with
  | |- context [buildPath fuel itemMap parent ?s] =>
      destruct (IH parent s) as [[pp st2] ->]; [|eauto]
  end.
  simpl.
  assert (Hin : t ∈ dom itemMap ∖ visited st).
  { apply elem_of_difference. split; [|done].
    apply elem_of_dom. eauto. }
  assert (Hsub : dom itemMap ∖ ({[t]} ∪ visited st)
                 ⊂ dom itemMap ∖ visited st) by set_solver.
  apply subset_size in Hsub. lia.
Qed.

Lemma BuildPath_visited t st path st' :
  BuildPath itemMap t st path st' -> visited st' = visited st.
Proof.
  induction 1 as [| | |t st item ? Hvis|t st item parent pp st2 ? Hvis ? ? ? IH];
    simpl; try done.
  - set_solver.
  - rewrite IH. simpl. set_solver.
Qed.

(** Entries already stored are never overwritten, and nothing is stored
    for a node that is on the current climb. *)
Lemma BuildPath_frame t st path st' :
  BuildPath itemMap t st path st' ->
  (forall k v, pathMap st !! k = Some v -> pathMap st' !! k = Some v)
  /\ (forall k, k ∈ visited st -> pathMap st !! k = None ->
                pathMap st' !! k = None).
Proof.
  induction 1 as [| | |t st item Hmemo Hvis|
                  t st item parent pp st2 Hmemo Hvis ? ? ? [IH1 IH2]];
    simpl; try done.
  - split; intros k.
    + intros v Hk. rewrite lookup_insert_ne; [done|congruence].
    + intros Hk Hnone. rewrite lookup_insert_ne; [done|set_solver].
  - split; intros k.
    + intros v Hk. rewrite lookup_insert_ne; [|congruence].
      by apply IH1.
    + intros Hk Hnone. rewrite lookup_insert_ne; [|set_solver].
      apply IH2; [simpl; set_solver|done].
Qed.

(** The answer of a call on a known node that is not on the climb is
    what the memo table holds afterwards. *)
Lemma BuildPath_stored t st path st' :
  BuildPath itemMap t st path st' ->
  is_Some (itemMap !! t) -> t ∉ visited st ->
  pathMap st' !! t = Some path.
Proof.
  destruct 1; simpl; intros [x Hx] Hnot; try done; try congruence;
    by rewrite lookup_insert_eq.
Qed.

Lemma BuildPath_wellShaped t st path st' :
  BuildPath itemMap t st path st' ->
  wellShaped itemMap (pathMap st) -> wellShaped itemMap (pathMap st').
Proof.
  induction 1 as [| | |t st item|t st item parent pp st2 ? ? ? ? ? IH];
    simpl; intros Hshape; try done.
  - intros k path. destruct (decide (k = t)) as [->|Hne].
    + rewrite lookup_insert_eq. intros [= <-]. by exists item, [].
    + rewrite lookup_insert_ne; [|done]. apply Hshape.
  - intros k path. destruct (decide (k = t)) as [->|Hne].
    + rewrite lookup_insert_eq. intros [= <-]. by exists item, pp.
    + rewrite lookup_insert_ne; [|done]. by apply IH.
Qed.
End HierarchyFacts.

Section AcyclicNodes.
Variable itemMap : gmap string Item.

Lemma rootPath_fun t p q :
  rootPath itemMap t p -> rootPath itemMap t q -> p = q.
Proof.
  intros Hp. revert q.
  induction Hp as [t item Hi Hr|t item parent Hi Hr Hnone
                  |t item parent pp Hi Hr Hpp IH];
    intros q Hq; inversion Hq; subst; simplify_eq; try done.
  - exfalso. match goal with
             | Hbad : rootPath _ parent _ |- _ => inversion Hbad; congruence
             end.
  - exfalso. inversion Hpp; congruence.
  - f_equal. by apply IH.
Qed.

Lemma BuildPath_unknown t st path st' :
  BuildPath itemMap t st path st' ->
  itemMap !! t = None ->
  (forall k, is_Some (pathMap st !! k) -> is_Some (itemMap !! k)) ->
  path = [].
Proof.
  destruct 1; intros Hnone Hdom; try done; try congruence.
  destruct (Hdom t) as [x Hx]; [eauto|congruence].
Qed.

Lemma BuildPath_sound t st path st' :
  BuildPath itemMap t st path st' ->
  soundFor itemMap (pathMap st) -> belowAll itemMap t (visited st) ->
  soundFor itemMap (pathMap st')
  /\ (forall q, rootPath itemMap t q -> path = q).
Proof.
  induction 1 as [t st path Hmemo|t st Hmemo Hvis|t st Hmemo Hvis Hitem
                 |t st item Hmemo Hvis Hitem Hpar
                 |t st item parent pp st2 Hmemo Hvis Hitem Hpar Hsub IH];
    intros Hsound Hbelow; simpl.
  - split; [done|]. intros q Hq. destruct Hsound as [_ Hs]. eauto.
  - split; [done|]. intros q Hq.
    destruct (Hbelow q Hq t Hvis) as (q' & Hq' & Hlen).
    rewrite (rootPath_fun _ _ _ Hq Hq') in Hlen. lia.
  - split; [done|]. intros q Hq. inversion Hq; congruence.
  - assert (Hres : forall q, rootPath itemMap t q -> [name item] = q).
    { intros q Hq. inversion Hq; subst; simplify_eq; done. }
    split; [|done].
    destruct Hsound as [Hdom Hs]. split.
    + intros k. destruct (decide (k = t)) as [->|Hne]; [eauto|].
      rewrite lookup_insert_ne; [|done]. apply Hdom.
    + intros k q v Hq. destruct (decide (k = t)) as [->|Hne].
      * rewrite lookup_insert_eq. intros [= <-]. by apply Hres.
      * rewrite lookup_insert_ne; [|done]. by apply Hs.
  - destruct IH as [[Hdom2 Hs2] Hpp]; [done| |].
    { intros p Hp v Hv. simpl in Hv.
      assert (Ht : rootPath itemMap t (p ++ [name item]))
        by (eapply rootPath_child; eauto).
      apply elem_of_union in Hv as [Hv|Hv].
      - apply elem_of_singleton in Hv as ->.
        exists (p ++ [name item]). split; [done|].
        rewrite length_app. simpl. lia.
      - destruct (Hbelow _ Ht v Hv) as (q & Hq & Hlen).
        exists q. split; [done|].
        rewrite length_app in Hlen. simpl in Hlen. lia. }
    assert (Hres : forall q, rootPath itemMap t q -> pp ++ [name item] = q).
    { intros q Hq. inversion Hq; subst; simplify_eq.
      - rewrite (BuildPath_unknown _ _ _ _ Hsub); [done|done|].
        destruct Hsound as [Hdom _]. apply Hdom.
      - f_equal. by apply Hpp. }
    split; [|done]. split.
    + intros k. destruct (decide (k = t)) as [->|Hne]; [eauto|].
      rewrite lookup_insert_ne; [|done]. apply Hdom2.
    + intros k q v Hq. destruct (decide (k = t)) as [->|Hne].
      * rewrite lookup_insert_eq. intros [= <-]. by apply Hres.
      * rewrite lookup_insert_ne; [|done]. by apply Hs2.
Qed.
End AcyclicNodes.

Section TwoNodeCycle.
Variable itemMap : gmap string Item.
Variables A B : Item.
Hypothesis HA : itemMap !! target_id A = Some A.
Hypothesis HB : itemMap !! target_id B = Some B.
Hypothesis HAB : target_id A <> target_id B.
Hypothesis HpA : parentRef A = Some (target_id B).
Hypothesis HpB : parentRef B = Some (target_id A).

Lemma cycleState_insert_other pm k v :
  k <> target_id A -> k <> target_id B ->
  cycleState A B pm -> cycleState A B (<[k := v]> pm).
Proof.
  intros Ha Hb Hc. unfold cycleState.
  rewrite !lookup_insert_ne by done. exact Hc.
Qed.

(** Entering the cycle at [x] (the other node being [y]) stores
    [[name y; name x]] for [x] and [[name y]] for [y]. *)
Lemma BuildPath_enters_cycle (X Y : Item) st path st' :
  itemMap !! target_id X = Some X -> itemMap !! target_id Y = Some Y ->
  target_id X <> target_id Y ->
  parentRef X = Some (target_id Y) -> parentRef Y = Some (target_id X) ->
  BuildPath itemMap (target_id X) st path st' ->
  pathMap st !! target_id X = None -> pathMap st !! target_id Y = None ->
  target_id X ∉ visited st -> target_id Y ∉ visited st ->
  pathMap st' = <[target_id X := [name Y; name X]]>
                  (<[target_id Y := [name Y]]> (pathMap st)).
Proof.
  intros HX HY Hne HpX HpY Hrun HmX HmY HvX HvY.
  inversion Hrun; subst; simplify_eq.
  match goal with
  | Hsub : BuildPath _ (target_id Y) _ _ _ |- _ =>
      inversion Hsub; subst; simpl in *; simplify_eq
  end.
  - set_solver.
  - match goal with
    | Hsub : BuildPath _ (target_id X) _ _ _ |- _ =>
        inversion Hsub; subst; simpl in *; simplify_eq; set_solver
    end.
Qed.

Lemma BuildPath_cycleState t st path st' :
  BuildPath itemMap t st path st' ->
  target_id A ∉ visited st -> target_id B ∉ visited st ->
  cycleState A B (pathMap st) ->
  cycleState A B (pathMap st')
  /\ (t = target_id A \/ t = target_id B ->
      is_Some (pathMap st' !! target_id A)).
Proof.
  induction 1 as [t st path Hmemo|t st Hmemo Hvis|t st Hmemo Hvis Hitem
                 |t st item Hmemo Hvis Hitem Hpar
                 |t st item parent pp st2 Hmemo Hvis Hitem Hpar Hsub IH];
    intros HvA HvB Hc; simpl.
  - split; [done|]. intros [->| ->]; [eauto|].
    destruct Hc as [[_ ?]|[[? _]|[? _]]]; [congruence|eauto|eauto].
  - split; [done|]. intros [->| ->]; done.
  - split; [done|]. intros [->| ->]; congruence.
  - assert (t <> target_id A) by (intros ->; congruence).
    assert (t <> target_id B) by (intros ->; congruence).
    split; [by apply cycleState_insert_other|]. intros [?|?]; done.
  - destruct (decide (t = target_id A)) as [->|HnA].
    { assert (HmB : pathMap st !! target_id B = None).
      { destruct Hc as [[_ ?]|[[? _]|[? _]]]; [done|congruence|congruence]. }
      pose proof (BuildPath_enters_cycle A B st _ _ HA HB HAB HpA HpB
                    (BP_climb _ _ _ _ _ _ _ Hmemo Hvis Hitem Hpar Hsub)
                    Hmemo HmB HvA HvB) as Heq.
      simpl in Heq. rewrite Heq. split.
      - right; left. rewrite lookup_insert_eq.
        rewrite lookup_insert_ne by done. by rewrite lookup_insert_eq.
      - intros _. rewrite lookup_insert_eq. eauto. }
    destruct (decide (t = target_id B)) as [->|HnB].
    { assert (HmA : pathMap st !! target_id A = None).
      { destruct Hc as [[? _]|[[_ ?]|[_ ?]]]; [done|congruence|congruence]. }
      pose proof (BuildPath_enters_cycle B A st _ _ HB HA
                    (not_eq_sym HAB) HpB HpA
                    (BP_climb _ _ _ _ _ _ _ Hmemo Hvis Hitem Hpar Hsub)
                    Hmemo HmA HvB HvA) as Heq.
      simpl in Heq. rewrite Heq. split.
      - right; right. rewrite lookup_insert_ne by done.
        rewrite !lookup_insert_eq. done.
      - intros _. rewrite lookup_insert_ne by done.
        rewrite lookup_insert_eq. eauto. }
    destruct IH as [Hc2 _]; [simpl; set_solver|simpl; set_solver|done|].
    split; [by apply cycleState_insert_other|]. intros [?|?]; done.
Qed.
End TwoNodeCycle.

Section WholeRun.

Lemma buildItemMap_from_lookup items (m : gmap string Item) k item :
  fold_left (fun m item => <[target_id item := item]> m) items m !! k
    = Some item ->
  (item ∈ items /\ target_id item = k) \/ m !! k = Some item.
Proof.
  revert m. induction items as [|x items IH]; intros m; simpl; [by right|].
  intros Hk. destruct (IH _ Hk) as [[Hin Hid]|Hm].
  - left. split; [by right|done].
  - destruct (decide (target_id x = k)) as [Heq|Hne].
    + rewrite Heq, lookup_insert_eq in Hm. simplify_eq.
      left. split; [by left|done].
    + rewrite lookup_insert_ne in Hm by done. by right.
Qed.

Lemma buildItemMap_from_keeps items (m : gmap string Item) k :
  is_Some (m !! k) ->
  is_Some (fold_left (fun m item => <[target_id item := item]> m) items m
             !! k).
Proof.
  revert m. induction items as [|x items IH]; intros m Hm; simpl; [done|].
  apply IH. destruct (decide (target_id x = k)) as [->|Hne].
  - rewrite lookup_insert_eq. eauto.
  - by rewrite lookup_insert_ne.
Qed.

Lemma buildItemMap_from_fresh items (m : gmap string Item) k :
  k ∉ map target_id items ->
  fold_left (fun m item => <[target_id item := item]> m) items m !! k
    = m !! k.
Proof.
  revert m. induction items as [|x items IH]; intros m Hk; simpl; [done|].
  simpl in Hk. apply not_elem_of_cons in Hk as [Hne Hk].
  rewrite IH by done. by rewrite lookup_insert_ne.
Qed.

Lemma buildItemMap_lookup items k item :
  buildItemMap items !! k = Some item ->
  item ∈ items /\ target_id item = k.
Proof.
  intros Hk. destruct (buildItemMap_from_lookup _ _ _ _ Hk) as [?|Hm];
    [done|]. by rewrite lookup_empty in Hm.
Qed.

Lemma buildItemMap_known items item :
  item ∈ items -> is_Some (buildItemMap items !! target_id item).
Proof.
  unfold buildItemMap. generalize (∅ : gmap string Item).
  induction items as [|x items IH]; intros m Hin; [by inversion Hin|].
  simpl. apply elem_of_cons in Hin as [->|Hin]; [|by apply IH].
  apply buildItemMap_from_keeps. rewrite lookup_insert_eq. eauto.
Qed.

Lemma buildItemMap_unique items item :
  NoDup (map target_id items) -> item ∈ items ->
  buildItemMap items !! target_id item = Some item.
Proof.
  unfold buildItemMap. generalize (∅ : gmap string Item).
  induction items as [|x items IH]; intros m Hnd Hin; [by inversion Hin|].
  simpl in *. apply NoDup_cons in Hnd as [Hx Hnd].
  apply elem_of_cons in Hin as [->|Hin]; [|by apply IH].
  rewrite buildItemMap_from_fresh by done. by rewrite lookup_insert_eq.
Qed.

Lemma buildItemMap_size items :
  size (dom (buildItemMap items)) <= length items.
Proof.
  unfold buildItemMap.
  assert (Hgen : forall m : gmap string Item,
    size (dom (fold_left (fun m item => <[target_id item := item]> m)
                 items m)) <= size (dom m) + length items).
  { induction items as [|x items IH]; intros m; simpl; [lia|].
    etrans; [apply IH|]. rewrite dom_insert_L.
    pose proof (size_union_alt {[target_id x]} (dom m)) as Hu.
    assert (size (dom m ∖ {[target_id x]}) <= size (dom m))
      by (apply subseteq_size; set_solver).
    rewrite size_singleton in Hu. lia. }
  specialize (Hgen ∅). rewrite dom_empty_L, size_empty in Hgen. lia.
Qed.

Variable itemMap : gmap string Item.
Variable fuel : nat.

Lemma buildAll_cons item items st :
  buildAll fuel itemMap (item :: items) st =
  match buildPath fuel itemMap (target_id item) (freshClimb st) with
  | Some (_, st') => buildAll fuel itemMap items st'
  | None => None
  end.
Proof.
  unfold buildAll. simpl.
  destruct (buildPath fuel itemMap (target_id item) _) as [[p st']|];
    [done|].
  induction items as [|x items IH]; [done|]. simpl. exact IH.
Qed.

Lemma buildAll_terminates items st :
  size (dom itemMap) < fuel -> is_Some (buildAll fuel itemMap items st).
Proof.
  intros Hfuel. revert st.
  induction items as [|x items IH]; intros st; [by eexists|].
  rewrite buildAll_cons.
  destruct (buildPath_terminates itemMap fuel (target_id x) (freshClimb st))
    as [[p st'] ->]; [|apply IH].
  simpl. replace (dom itemMap ∖ ∅) with (dom itemMap) by set_solver. done.
Qed.

(** A property of the memo table kept by every top-level call is kept
    by the whole loop. *)
Lemma buildAll_invariant (P : gmap string (list string) -> Prop) items st st' :
  (forall t s path s',
      BuildPath itemMap t s path s' -> visited s = ∅ ->
      P (pathMap s) -> P (pathMap s')) ->
  buildAll fuel itemMap items st = Some st' ->
  P (pathMap st) -> P (pathMap st').
Proof.
  intros Hstep. revert st.
  induction items as [|x items IH]; intros st Hrun HP.
  { by inversion Hrun; subst. }
  rewrite buildAll_cons in Hrun.
  destruct (buildPath fuel itemMap (target_id x) (freshClimb st))
    as [[p s1]|] eqn:Hcall; [|done].
  apply buildPath_BuildPath in Hcall.
  eapply IH; [done|]. by eapply Hstep; [done|done|].
Qed.

Lemma buildAll_keeps items st st' k v :
  buildAll fuel itemMap items st = Some st' ->
  pathMap st !! k = Some v -> pathMap st' !! k = Some v.
Proof.
  apply (buildAll_invariant (fun pm => pm !! k = Some v)).
  intros t s path s' Hrun _ Hk.
  by apply (BuildPath_frame _ _ _ _ _ Hrun).
Qed.

Lemma buildAll_covers items st st' item :
  buildAll fuel itemMap items st = Some st' ->
  item ∈ items -> is_Some (itemMap !! target_id item) ->
  is_Some (pathMap st' !! target_id item).
Proof.
  revert st. induction items as [|x items IH]; intros st Hrun Hin Hknown;
    [by inversion Hin|].
  rewrite buildAll_cons in Hrun.
  destruct (buildPath fuel itemMap (target_id x) (freshClimb st))
    as [[p s1]|] eqn:Hcall; [|done].
  apply elem_of_cons in Hin as [->|Hin]; [|by eapply IH].
  apply buildPath_BuildPath in Hcall.
  apply BuildPath_stored in Hcall; [|done|set_solver].
  exists p. by eapply buildAll_keeps.
Qed.
End WholeRun.

Lemma empty_wellShaped itemMap : wellShaped itemMap ∅.
Proof. intros k path Hk. by rewrite lookup_empty in Hk. Qed.

Lemma empty_soundFor itemMap : soundFor itemMap ∅.
Proof.
  split.
  - intros k [x Hx]. by rewrite lookup_empty in Hx.
  - intros k q v _ Hk. by rewrite lookup_empty in Hk.
Qed.

Lemma buildPathMap_run_terminates items :
  is_Some (buildPathMap_run items).
Proof.
  apply buildAll_terminates.
  pose proof (buildItemMap_size items). lia.
Qed.

(** C1, as stated, fails: on the two-node cycle [A <-> B] the map returned
    by [buildPathMap] does not hold the empty path for both nodes (it holds
    [["b"; "a"]] for [A] and [["b"]] for [B]). *)
Lemma buildPathMap_cycle_paths_not_empty :
  ~ (exists pm, buildPathMap twoCycle = Some pm
                /\ pm !! "A" = Some [] /\ pm !! "B" = Some []).
Proof.
  intros (pm & Hrun & HA & _).
  assert (Heval : (fun m => m !! "A") <$> buildPathMap twoCycle
                  = Some (Some ["b"; "a"])) by (vm_compute; reflexivity).
  rewrite Hrun in Heval. simpl in Heval. congruence.
Qed.

(** C1 (amended): for every collection that contains a two-node parent
    cycle [A <-> B], [buildPathMap] terminates without throwing; the memo
    table holds a non-empty path for both nodes of the cycle, namely
    [[name B; name A]] and [[name B]] when the cycle is entered at [A], or
    [[name A]] and [[name A; name B]] when it is entered at [B]; and every
    node whose parent links end (at a root or at an unknown parent) is
    stored with its full root-to-node name path. *)
Theorem buildPathMap_two_node_cycle (items : list Item) (A B : Item) :
  NoDup (map target_id items) ->
  A ∈ items -> B ∈ items ->
  target_id A <> target_id B ->
  parentRef A = Some (target_id B) ->
  parentRef B = Some (target_id A) ->
  exists pm,
    buildPathMap items = Some pm
    /\ ((pm !! target_id A = Some [name B; name A]
         /\ pm !! target_id B = Some [name B])
        \/ (pm !! target_id A = Some [name A]
            /\ pm !! target_id B = Some [name A; name B]))
    /\ (forall t path,
          rootPath (buildItemMap items) t path -> pm !! t = Some path).
Proof.
  intros Hnd HinA HinB HAB HpA HpB.
  destruct (buildPathMap_run_terminates items) as [st Hrun].
  exists (pathMap st). unfold buildPathMap. rewrite Hrun.
  split; [done|].
  unfold buildPathMap_run in Hrun.
  pose proof (buildItemMap_unique _ _ Hnd HinA) as HA.
  pose proof (buildItemMap_unique _ _ Hnd HinB) as HB.
  split.
  - assert (Hc : cycleState A B (pathMap st)).
    { eapply (buildAll_invariant _ _ (cycleState A B)); [|exact Hrun|].
      - intros t s path s' Hcall Hvis Hc.
        apply (BuildPath_cycleState _ A B HA HB HAB HpA HpB _ _ _ _ Hcall);
          [rewrite Hvis; set_solver|rewrite Hvis; set_solver|done].
      - left. split; apply lookup_empty. }
    destruct (buildAll_covers _ _ _ _ _ A Hrun HinA) as [x Hx]; [eauto|].
    destruct Hc as [[? _]|[?|?]]; [congruence|by left|by right].
  - intros t path Hpath.
    assert (Hs : soundFor (buildItemMap items) (pathMap st)).
    { eapply (buildAll_invariant _ _ (soundFor (buildItemMap items)));
        [|exact Hrun|apply empty_soundFor].
      intros u s p s' Hcall Hvis Hs.
      apply (BuildPath_sound _ _ _ _ _ Hcall Hs).
      intros ? ? v Hv. rewrite Hvis in Hv. set_solver. }
    assert (Hknown : exists item, buildItemMap items !! t = Some item)
      by (inversion Hpath; eauto).
    destruct Hknown as [item Hitem].
    destruct (buildItemMap_lookup _ _ _ Hitem) as [Hin <-].
    destruct (buildAll_covers _ _ _ _ _ item Hrun Hin) as [v Hv]; [eauto|].
    destruct Hs as [_ Hs]. by rewrite Hv, (Hs _ _ _ Hpath Hv).
Qed.

Lemma buildPathMap_two_node_cycle_witness :
  exists pm,
    buildPathMap cyclicItems = Some pm
    /\ ((pm !! "A" = Some ["b"; "a"] /\ pm !! "B" = Some ["b"])
        \/ (pm !! "A" = Some ["a"] /\ pm !! "B" = Some ["a"; "b"]))
    /\ (forall t path,
          rootPath (buildItemMap cyclicItems) t path -> pm !! t = Some path).
Proof.
  apply (buildPathMap_two_node_cycle cyclicItems
           {| target_id := "A"; parent_id := Some "B"; name := "a" |}
           {| target_id := "B"; parent_id := Some "A"; name := "b" |}).
  - apply (bool_decide_unpack _). vm_compute. reflexivity.
  - apply (bool_decide_unpack _). vm_compute. reflexivity.
  - apply (bool_decide_unpack _). vm_compute. reflexivity.
  - simpl. discriminate.
  - reflexivity.
  - reflexivity.
Defined.

Lemma buildItemMap_from_last items (m : gmap string Item) k reg :
  fold_left (fun m item => <[target_id item := item]> m) items m !! k
    = Some reg ->
  (exists before after,
     items = before ++ reg :: after /\ target_id reg = k
     /\ k ∉ map target_id after)
  \/ (m !! k = Some reg /\ k ∉ map target_id items).
Proof.
  revert m. induction items as [|x items IH]; intros m Hk; simpl in *.
  { right. split; [done|]. apply not_elem_of_nil. }
  destruct (IH _ Hk) as [(before & after & -> & Hid & Hlast)|[Hm Hfresh]].
  - left. by exists (x :: before), after.
  - destruct (decide (target_id x = k)) as [Heq|Hne].
    + rewrite Heq, lookup_insert_eq in Hm. simplify_eq.
      left. by exists [], items.
    + rewrite lookup_insert_ne in Hm by done.
      right. split; [done|]. apply not_elem_of_cons. split; [congruence|done].
Qed.

(** The item registered under an id is the last item of the list that
    carries it. *)
Lemma buildItemMap_last items k reg :
  buildItemMap items !! k = Some reg ->
  exists before after,
    items = before ++ reg :: after /\ target_id reg = k
    /\ k ∉ map target_id after.
Proof.
  intros Hk. destruct (buildItemMap_from_last _ _ _ _ Hk) as [?|[Hm _]];
    [done|]. by rewrite lookup_empty in Hm.
Qed.

(** C10, as stated, fails: in a collection where two nodes share the id
    [X] the map holds one path for [X], and it ends with the name of the
    second node; the path stored under the id of the first node does not
    end with that node's own name. *)
Lemma buildPathMap_duplicate_id_keeps_one_name :
  ~ (exists pm,
       buildPathMap duplicateIds = Some pm
       /\ forall item, item ∈ duplicateIds ->
            exists ancestors,
              pm !! target_id item = Some (ancestors ++ [name item])).
Proof.
  intros (pm & Hrun & Hall).
  assert (Heval : (fun m => m !! "X") <$> buildPathMap duplicateIds
                  = Some (Some ["x2"])) by (vm_compute; reflexivity).
  rewrite Hrun in Heval. simpl in Heval.
  destruct (Hall {| target_id := "X"; parent_id := None; name := "x1" |})
    as [ancestors Hpath]; [by left|].
  simpl in Hpath. rewrite Hpath in Heval.
  destruct ancestors as [|a [|b ancestors]]; simpl in Heval; congruence.
Qed.

(** C10 (amended): the map returned by [buildPathMap] has an entry for the
    id of every node of the collection, nodes on parent cycles included;
    every stored path is non-empty, and the path stored under an id ends
    with the name of the last node of the collection that carries this id,
    which is the node's own name when no two nodes share an id. *)
Theorem buildPathMap_covers_every_node (items : list Item) :
  exists pm,
    buildPathMap items = Some pm
    /\ (forall item, item ∈ items ->
          exists ancestors reg before after,
            pm !! target_id item = Some (ancestors ++ [name reg])
            /\ items = before ++ reg :: after
            /\ target_id reg = target_id item
            /\ (target_id item ∉ map target_id after)
            /\ (NoDup (map target_id items) -> reg = item))
    /\ (forall k path, pm !! k = Some path ->
          path <> [] /\ exists item, item ∈ items /\ target_id item = k).
Proof.
  destruct (buildPathMap_run_terminates items) as [st Hrun].
  exists (pathMap st). unfold buildPathMap. rewrite Hrun.
  split; [done|].
  unfold buildPathMap_run in Hrun.
  assert (Hshape : wellShaped (buildItemMap items) (pathMap st)).
  { eapply (buildAll_invariant _ _ (wellShaped (buildItemMap items)));
      [|exact Hrun|apply empty_wellShaped].
    intros t s path s' Hcall _. by apply (BuildPath_wellShaped _ _ _ _ _ Hcall). }
  split.
  - intros item Hin.
    destruct (buildAll_covers _ _ _ _ _ item Hrun Hin) as [path Hpath];
      [by apply buildItemMap_known|].
    destruct (Hshape _ _ Hpath) as (reg & pre & Hreg & ->).
    destruct (buildItemMap_last _ _ _ Hreg) as (before & after & Hsplit & Hid & Hlast).
    exists pre, reg, before, after. repeat split; try done.
    intros Hnd. rewrite (buildItemMap_unique _ _ Hnd Hin) in Hreg.
    by simplify_eq.
  - intros k path Hpath.
    destruct (Hshape _ _ Hpath) as (reg & pre & Hreg & ->).
    split; [by destruct pre|].
    exists reg. by apply buildItemMap_lookup.
Qed.

Lemma buildPathMap_covers_every_node_witness :
  exists pm,
    buildPathMap cyclicItems = Some pm
    /\ (exists ancestors, pm !! "A" = Some (ancestors ++ ["a"]))
    /\ (exists ancestors, pm !! "B" = Some (ancestors ++ ["b"])).
Proof.
  destruct (buildPathMap_covers_every_node cyclicItems) as (pm & Hrun & Hall & _).
  exists pm. split; [exact Hrun|].
  assert (Hnd : NoDup (map target_id cyclicItems))
    by (apply (bool_decide_unpack _); vm_compute; reflexivity).
  split.
  - destruct (Hall {| target_id := "A"; parent_id := Some "B"; name := "a" |})
      as (pre & reg & _ & _ & Hp & _ & _ & _ & Hown).
    { apply (bool_decide_unpack _). vm_compute. reflexivity. }
    exists pre. rewrite (Hown Hnd) in Hp. exact Hp.
  - destruct (Hall {| target_id := "B"; parent_id := Some "A"; name := "b" |})
      as (pre & reg & _ & _ & Hp & _ & _ & _ & Hown).
    { apply (bool_decide_unpack _). vm_compute. reflexivity. }
    exists pre. rewrite (Hown Hnd) in Hp. exact Hp.
Defined.

(** ** Annotated renderer *)

(** C7 (the code departs from the claim): an array with no entries is
    rendered as [[]], but an object with no entries is rendered as an
    opening brace, two line breaks, the padding of its level and a closing
    brace, never as the two characters [{}]. *)
Theorem stringifyWithComments_empty_containers `{Runtime}
    (descMap : gmap string string) (path : string) (indent level : nat) :
  stringifyWithComments (JArr []) descMap path indent level = "[]"
  /\ stringifyWithComments (JObj []) descMap path indent level
     = "{" +:+ newline +:+ newline +:+ spaces (level * indent) +:+ "}"
  /\ stringifyWithComments (JObj []) descMap path indent level <> "{}".
Proof.
  split; [reflexivity|]. split; [reflexivity|].
  simpl. unfold newline. discriminate.
Qed.

(** The empty object reaches the renderer from an ordinary field list: a
    field of type [object] without example is synthesized as [{}], and the
    annotated body shows it as a brace pair split over three lines. *)
Example stringifyWithComments_object_field :
  let fields := expandFieldListWithParents [objectField] in
  @stringifyWithComments sampleRuntime (buildJsonFromFieldList fields)
    (buildDescMap fields) EmptyString 4 0
  = "{" +:+ newline
    +:+ "    " +:+ dquote +:+ "data" +:+ dquote +:+ ": {" +:+ newline
    +:+ newline
    +:+ "    } // payload" +:+ newline
    +:+ "}".
Proof. vm_compute. reflexivity. Qed.

(** ** Parameter projector *)

Lemma convertParams_length `{Runtime} clock fields :
  length (convertParams clock fields) = length fields.
Proof.
  revert clock. induction fields as [|f fields IH]; intros clock; simpl;
    [done|]. by rewrite IH.
Qed.

Lemma convertParams_lookup `{Runtime} clock fields i f :
  fields !! i = Some f ->
  convertParams clock fields !! i
    = Some (convertParam (generateId (clock + i)) f).
Proof.
  revert clock i. induction fields as [|g fields IH]; intros clock i Hi;
    [done|].
  destruct i as [|i]; simpl in *.
  - simplify_eq. by rewrite Nat.add_0_r.
  - rewrite (IH (S clock) i Hi). do 3 f_equal. lia.
Qed.

(** C8: [convertParams] yields one descriptor per field, in order
    (same length, descriptor [i] built from field [i] alone and carrying its
    key); for an auto-parent field both flags are 0 and the value is the
    empty string; for any other field the flags are 1 when the field is
    required and otherwise fall back to the field's own [is_checked] /
    [not_null] (0 when absent), and the value is the field's example
    (then its [value], then the empty string). *)
Theorem convertParams_one_descriptor_per_field `{Runtime}
    (clock : nat) (fields : list Field) :
  length (convertParams clock fields) = length fields
  /\ forall i f, fields !! i = Some f ->
       exists d,
         convertParams clock fields !! i = Some d
         /\ d = convertParam (generateId (clock + i)) f
         /\ p_key d = key f
         /\ (autoParent f = true ->
               p_is_checked d = 0%Z /\ p_not_null d = 0%Z
               /\ p_value d = JStr EmptyString)
         /\ (autoParent f = false ->
               (required f = true ->
                  p_is_checked d = 1%Z /\ p_not_null d = 1%Z)
               /\ (required f = false ->
                     p_is_checked d = default 0%Z (is_checked f)
                     /\ p_not_null d = default 0%Z (not_null f))
               /\ p_value d
                  = coalesce (example f) (coalesce (value f) (JStr EmptyString))).
Proof.
  split; [apply convertParams_length|].
  intros i f Hi. eexists. split; [by apply convertParams_lookup|].
  split; [done|]. split; [done|]. split.
  - intros Hauto. simpl. by rewrite Hauto.
  - intros Hauto. simpl. rewrite Hauto.
    split; [by intros ->|]. split; [by intros ->|done].
Qed.

Lemma convertParams_one_descriptor_per_field_witness :
  let fields := expandFieldListWithParents
                  [userField "items[].id" "identifier" (Some (JStr "x1"))] in
  length (@convertParams sampleRuntime 0 fields) = 2%nat
  /\ (exists d, @convertParams sampleRuntime 0 fields !! 0%nat = Some d
                /\ p_key d = Some "items" /\ p_is_checked d = 0%Z
                /\ p_value d = JStr EmptyString)
  /\ (exists d, @convertParams sampleRuntime 0 fields !! 1%nat = Some d
                /\ p_key d = Some "items[].id" /\ p_value d = JStr "x1").
Proof.
  intros fields.
  destruct (@convertParams_one_descriptor_per_field sampleRuntime 0 fields)
    as [Hlen Hall].
  split; [exact Hlen|]. split.
  - destruct (Hall 0%nat (autoParentField "items" true))
      as (d & Hd & _ & Hkey & Hauto & _); [vm_compute; reflexivity|].
    exists d. destruct (Hauto eq_refl) as (Hc & _ & Hv). by repeat split.
  - destruct (Hall 1%nat (userField "items[].id" "identifier" (Some (JStr "x1"))))
      as (d & Hd & _ & Hkey & _ & Huser); [vm_compute; reflexivity|].
    exists d. destruct (Huser eq_refl) as (_ & _ & Hv). by repeat split.
Defined.

(** ** Document synthesizer *)

(** C6: the field list [[{key:"items[].id", example:"x1"}]], expanded and
    synthesized, gives [{ "items": [ { "id": "x1" } ] }]; and for every two
    fields with the paths [items[].id] and [items[].name], in either order,
    both values are stored in the single element of the [items] array. *)
Theorem synthesis_collapses_array_paths :
  buildJsonFromFieldList
    (expandFieldListWithParents
       [ {| key := Some "items[].id"; type := None; field_type := None;
            required := false; desc := None; description := None;
            example := Some (JStr "x1"); value := None; is_checked := None;
            not_null := None; schema := None; autoParent := false |} ])
  = JObj [("items", JArr [JObj [("id", JStr "x1")]])]
  /\ forall f1 f2 : Field,
       key f1 = Some "items[].id" -> key f2 = Some "items[].name" ->
       autoParent f1 = false -> autoParent f2 = false ->
       buildJsonFromFieldList (expandFieldListWithParents [f1; f2])
       = JObj [("items",
                JArr [JObj [("id", leafValue f1); ("name", leafValue f2)]])]
       /\ buildJsonFromFieldList (expandFieldListWithParents [f2; f1])
          = JObj [("items",
                   JArr [JObj [("name", leafValue f2); ("id", leafValue f1)]])].
Proof.
  split; [vm_compute; reflexivity|].
  intros [k1 t1 ft1 r1 d1 ds1 e1 v1 ic1 nn1 s1 a1]
         [k2 t2 ft2 r2 d2 ds2 e2 v2 ic2 nn2 s2 a2]; simpl.
  intros -> -> -> ->.
  match goal with
  | |- context [expandFieldListWithParents [?x; ?y]] =>
      set (f1 := x); set (f2 := y)
  end.
  assert (Hexp12 : expandFieldListWithParents [f1; f2]
                   = [autoParentField "items" true; f1; f2])
    by (vm_compute; reflexivity).
  assert (Hexp21 : expandFieldListWithParents [f2; f1]
                   = [autoParentField "items" true; f2; f1])
    by (vm_compute; reflexivity).
  rewrite Hexp12, Hexp21.
  change (buildJsonFromFieldList [autoParentField "items" true; f1; f2])
    with (setPath (setPath (JObj []) (pathSegments "items[].id") (leafValue f1))
            (pathSegments "items[].name") (leafValue f2)).
  change (buildJsonFromFieldList [autoParentField "items" true; f2; f1])
    with (setPath (setPath (JObj []) (pathSegments "items[].name") (leafValue f2))
            (pathSegments "items[].id") (leafValue f1)).
  generalize (leafValue f1) (leafValue f2). intros w1 w2.
  split; vm_compute; reflexivity.
Qed.

Lemma synthesis_collapses_array_paths_witness :
  buildJsonFromFieldList
    (expandFieldListWithParents
       [userField "items[].id" "identifier" (Some (JNum 7));
        userField "items[].name" "label" None])
  = JObj [("items", JArr [JObj [("id", JNum 7); ("name", JStr EmptyString)]])].
Proof.
  destruct synthesis_collapses_array_paths as [_ Hpair].
  destruct (Hpair (userField "items[].id" "identifier" (Some (JNum 7)))
                  (userField "items[].name" "label" None)
                  eq_refl eq_refl eq_refl eq_refl) as [Hfirst _].
  exact Hfirst.
Defined.

(** ** Response-set normalizer *)

Section NormalizerFacts.
Context `{Runtime}.

Lemma convertResponse_canonical clock index resp converted drawn :
  convertResponse clock index resp = Ok (converted, drawn) ->
  isApiPostResponseExample converted = true.
Proof.
  unfold convertResponse. destruct (rawOf resp); [|done].
  by intros [= <- _].
Qed.





End NormalizerFacts.






(** ** Parent expansion *)

Section PathStrings.

Lemma forallb_Forall_true {A} (f : A -> bool) (l : list A) :
  forallb f l = true -> Forall (fun x => f x = true) l.
Proof.
  induction l as [|x l IH]; simpl; [by constructor|].
  intros [Hx Hl]%andb_true_iff. constructor; [done|by apply IH].
Qed.

Lemma wellFormedKey_segments k :
  wellFormedKey k = true ->
  Forall (fun seg => plainSegment (cleanSeg seg) = true) (split_dot k).
Proof. apply forallb_Forall_true. Qed.

Lemma split_dot_nonempty s : split_dot s <> [].
Proof.
  induction s as [|c r IH]; simpl; [done|].
  destruct (isDot c); [done|]. by destruct (split_dot r).
Qed.

Lemma split_dot_noDot s : Forall (fun seg => noDot seg = true) (split_dot s).
Proof.
  induction s as [|c r IH]; simpl; [by repeat constructor|].
  destruct (isDot c) eqn:Hc; [by constructor|].
  destruct (split_dot r) as [|h t]; [by repeat constructor; simpl; rewrite Hc|].
  inversion IH; subst. constructor; [|done]. simpl. by rewrite Hc.
Qed.

Lemma split_dot_plain c : noDot c = true -> split_dot c = [c].
Proof.
  induction c as [|a r IH]; simpl; [done|].
  intros [Ha Hr]%andb_true_iff. apply negb_true_iff in Ha.
  by rewrite Ha, (IH Hr).
Qed.

Lemma split_dot_app a b :
  split_dot (a +:+ "." +:+ b) = split_dot a ++ split_dot b.
Proof.
  induction a as [|c r IH]; simpl; [done|].
  destruct (isDot c); [by rewrite IH|].
  rewrite IH. pose proof (split_dot_nonempty r).
  by destruct (split_dot r).
Qed.

Lemma dropLast2_noDot s : noDot s = true -> noDot (dropLast2 s) = true.
Proof.
  induction s as [|c r IH]; [done|].
  cbn [noDot]. intros [Hc Hr]%andb_true_iff.
  change (dropLast2 (String c r))
    with (if (2 <=? String.length r)%nat then String c (dropLast2 r)
          else EmptyString).
  destruct (2 <=? String.length r)%nat; [|done].
  cbn [noDot]. by rewrite Hc, (IH Hr).
Qed.

Lemma cleanSeg_noDot seg : noDot seg = true -> noDot (cleanSeg seg) = true.
Proof.
  unfold cleanSeg. destruct (endsWithBrackets seg); [|done].
  apply dropLast2_noDot.
Qed.

Lemma cleanSeg_plain c : plainSegment c = true -> cleanSeg c = c.
Proof.
  unfold plainSegment, cleanSeg. intros [_ Hb]%andb_true_iff.
  apply negb_true_iff in Hb. by rewrite Hb.
Qed.

Lemma append_nonempty a b : b <> EmptyString -> a +:+ b <> EmptyString.
Proof. destruct a; simpl; [done|discriminate]. Qed.

Lemma extendPath_nonempty cp seg :
  plainSegment (cleanSeg seg) = true -> extendPath cp seg <> EmptyString.
Proof.
  unfold plainSegment, extendPath. intros [Hne _]%andb_true_iff.
  apply negb_true_iff, bool_decide_eq_false in Hne.
  case_bool_decide; [done|]. apply append_nonempty. discriminate.
Qed.

Lemma pathsFrom_length cp segs : length (pathsFrom cp segs) = length segs.
Proof.
  revert cp. induction segs as [|s segs IH]; intros cp; simpl; [done|].
  by rewrite IH.
Qed.

Lemma pathsFrom_take cp segs n :
  pathsFrom cp (take n segs) = take n (pathsFrom cp segs).
Proof.
  revert cp n. induction segs as [|s segs IH]; intros cp [|n]; simpl;
    try done. by rewrite IH.
Qed.

(** Walking over stripped segments gives the same prefixes. *)
Lemma pathsFrom_clean cp segs :
  Forall (fun seg => plainSegment (cleanSeg seg) = true) segs ->
  pathsFrom cp (map cleanSeg segs) = pathsFrom cp segs.
Proof.
  revert cp. induction segs as [|s segs IH]; intros cp Hwf; simpl; [done|].
  inversion Hwf as [|? ? Hs Hrest]; subst.
  assert (Heq : extendPath cp (cleanSeg s) = extendPath cp s).
  { unfold extendPath. by rewrite (cleanSeg_plain _ Hs). }
  by rewrite Heq, IH.
Qed.

(** Splitting a prefix gives back the stripped segments it was built
    from. *)
Lemma split_dot_pathsFrom cp segs j p :
  cp <> EmptyString ->
  Forall (fun seg => noDot seg = true) segs ->
  Forall (fun seg => plainSegment (cleanSeg seg) = true) segs ->
  pathsFrom cp segs !! j = Some p ->
  split_dot p = split_dot cp ++ take (S j) (map cleanSeg segs).
Proof.
  revert cp j. induction segs as [|s segs IH]; intros cp j Hcp Hdots Hwf Hj;
    [done|].
  inversion Hdots as [|? ? Hd Hdrest]; subst.
  inversion Hwf as [|? ? Hs Hrest]; subst.
  assert (Hext : extendPath cp s = cp +:+ "." +:+ cleanSeg s).
  { unfold extendPath. by rewrite bool_decide_eq_false_2. }
  assert (Hsplit : split_dot (extendPath cp s) = split_dot cp ++ [cleanSeg s]).
  { rewrite Hext, split_dot_app.
    by rewrite (split_dot_plain (cleanSeg s)) by by apply cleanSeg_noDot. }
  destruct j as [|j]; simpl in Hj.
  - simplify_eq. rewrite Hsplit. simpl. by rewrite take_0.
  - rewrite (IH (extendPath cp s) j); [|by apply extendPath_nonempty|done..].
    rewrite Hsplit. simpl. by rewrite <- app_assoc.
Qed.

Lemma split_dot_prefixPath k j p :
  wellFormedKey k = true ->
  prefixPaths k !! j = Some p ->
  split_dot p = take (S j) (map cleanSeg (split_dot k)).
Proof.
  unfold prefixPaths. intros Hwf Hj.
  pose proof (wellFormedKey_segments _ Hwf) as Hwf'.
  pose proof (split_dot_noDot k) as Hdots.
  destruct (split_dot k) as [|s segs]; [done|].
  inversion Hdots as [|? ? Hd Hdrest]; subst.
  inversion Hwf' as [|? ? Hs Hrest]; subst.
  assert (Hfirst : extendPath EmptyString s = cleanSeg s) by done.
  destruct j as [|j]; simpl in Hj.
  - simplify_eq. rewrite Hfirst. simpl. rewrite take_0.
    by apply split_dot_plain, cleanSeg_noDot.
  - rewrite (split_dot_pathsFrom _ _ _ _ (extendPath_nonempty _ _ Hs)
               Hdrest Hrest Hj).
    rewrite Hfirst. by rewrite (split_dot_plain _ (cleanSeg_noDot _ Hd)).
Qed.

(** The prefixes of a prefix are the prefixes before it. *)
Lemma prefixPaths_of_prefix k j p :
  wellFormedKey k = true ->
  prefixPaths k !! j = Some p ->
  prefixPaths p = take (S j) (prefixPaths k).
Proof.
  intros Hwf Hj. unfold prefixPaths at 1.
  rewrite (split_dot_prefixPath _ _ _ Hwf Hj).
  rewrite firstn_map, pathsFrom_clean.
  - by rewrite pathsFrom_take.
  - apply Forall_take. by apply wellFormedKey_segments.
Qed.

Lemma strippedPath_of_prefix k j p :
  wellFormedKey k = true ->
  prefixPaths k !! j = Some p ->
  strippedPath p = p.
Proof.
  intros Hwf Hj. unfold strippedPath.
  rewrite (prefixPaths_of_prefix _ _ _ Hwf Hj).
  assert (Hlen : j < length (prefixPaths k)) by by eapply lookup_lt_Some.
  rewrite last_lookup, length_take, lookup_take_lt by lia.
  replace (Init.Nat.pred (S j `min` length (prefixPaths k))) with j by lia.
  by rewrite Hj.
Qed.

Lemma properPrefix_of_prefix k j p q :
  wellFormedKey k = true ->
  prefixPaths k !! j = Some p ->
  properPrefix q p ->
  exists j', j' < j /\ prefixPaths k !! j' = Some q.
Proof.
  intros Hwf Hj (i & Hi & Hlt).
  rewrite (prefixPaths_of_prefix _ _ _ Hwf Hj) in Hi, Hlt.
  rewrite length_take in Hlt.
  exists i. split; [lia|].
  rewrite lookup_take_lt in Hi by lia. done.
Qed.
End PathStrings.

Section ExpansionFacts.
Variable userKeys : gset string.

Lemma blockSpec_skip seen p paths autos seen' :
  p ∈ userKeys \/ p ∈ seen ->
  blockSpec userKeys seen paths autos seen' ->
  blockSpec userKeys seen (p :: paths) autos seen'.
Proof.
  intros Hp (Hs1 & Hs2 & Hs3 & Hautos & Hcov & Hnd).
  repeat split; [done| | | | |done].
  - intros q [->|Hq]%elem_of_cons; [|by apply Hs2].
    destruct Hp as [?|?]; [by left|right; set_solver].
  - intros q Hq. destruct (Hs3 q Hq) as [?|[? ?]]; [by left|].
    right. split; [by right|done].
  - intros i x Hx.
    destruct (Hautos i x Hx) as (p0 & a & j & -> & HU & HS & Hj & Hlen & Hbefore).
    exists p0, a, (S j). repeat split; try done; [simpl; lia|].
    intros [|j'] p' Hlt Hj'; simpl in Hj'.
    + simplify_eq. destruct Hp as [?|?]; [by left|by right; left].
    + apply (Hbefore j' p'); [lia|done].
  - intros [|j] p0 Hj Hlen; simpl in *.
    + simplify_eq. destruct Hp as [?|?]; [by left|by right; left].
    + apply (Hcov j p0 Hj). lia.
Qed.

Lemma blockSpec_push seen p a paths autos seen' :
  p ∉ userKeys -> p ∉ seen -> paths <> [] ->
  blockSpec userKeys ({[p]} ∪ seen) paths autos seen' ->
  blockSpec userKeys seen (p :: paths) (autoParentField p a :: autos) seen'.
Proof.
  intros HpU HpS Hne (Hs1 & Hs2 & Hs3 & Hautos & Hcov & Hnd).
  assert (Hlen0 : 0 < length paths) by (destruct paths; [done|simpl; lia]).
  repeat split.
  - set_solver.
  - intros q [->|Hq]%elem_of_cons; [right; set_solver|by apply Hs2].
  - intros q Hq. destruct (Hs3 q Hq) as [Hq'|[? ?]].
    + apply elem_of_union in Hq' as [->%elem_of_singleton|?]; [|by left].
      right. split; [by left|done].
    + right. split; [by right|done].
  - intros [|i] x Hx; simpl in Hx.
    + simplify_eq. exists p, a, 0. repeat split; try done; [simpl; lia|].
      intros j' p' Hlt. lia.
    + destruct (Hautos i x Hx)
        as (p0 & a0 & j & -> & HU & HS & Hj & Hlen & Hbefore).
      exists p0, a0, (S j). repeat split; try done; [set_solver|simpl; lia|].
      intros [|j'] p' Hlt Hj'; simpl in Hj'.
      * simplify_eq. right; right. exists 0, (autoParentField p' a).
        repeat split; [lia|done..].
      * destruct (Hbefore j' p') as [?|[Hin|(i' & y & ? & ? & ?)]];
          [lia|done|by left| |].
        -- apply elem_of_union in Hin as [->%elem_of_singleton|?];
             [|by right; left].
           right; right. exists 0, (autoParentField p a).
           repeat split; [lia|done..].
        -- right; right. exists (S i'), y. repeat split; [lia|done..].
  - intros [|j] p0 Hj Hlen; simpl in *.
    + simplify_eq. right; right. exists (autoParentField p0 a).
      split; [by left|done].
    + destruct (Hcov j p0 Hj) as [?|[Hin|(y & ? & ?)]]; [lia|by left| |].
      * apply elem_of_union in Hin as [->%elem_of_singleton|?];
          [|by right; left].
        right; right. exists (autoParentField p a). split; [by left|done].
      * right; right. exists y. split; [by right|done].
  - simpl. apply NoDup_cons. split; [|done].
    rewrite list_elem_of_In, in_map_iff.
    intros (y & Hy & Hin). apply list_elem_of_In in Hin.
    apply list_elem_of_lookup in Hin as [i Hi].
    destruct (Hautos i y Hi) as (p0 & a0 & j & -> & _ & HS & _).
    simpl in Hy. subst. set_solver.
Qed.

Lemma ensureParent_go_spec currentPath segments result seen :
  exists autos seen',
    ensureParent_go userKeys currentPath segments (result, seen)
      = (result ++ autos, seen')
    /\ blockSpec userKeys seen (pathsFrom currentPath segments) autos seen'.
Proof.
  revert currentPath result seen.
  induction segments as [|seg rest IH]; intros cp result seen.
  { exists [], seen. split; [by rewrite app_nil_r|].
    repeat split; try done; try (intros ? ? Hx; by inversion Hx).
    - intros p Hp. by inversion Hp.
    - by left.
    - constructor. }
  simpl. unfold ensureStep. simpl.
  case_bool_decide as HU.
  { destruct (IH (extendPath cp seg) result seen) as (autos & seen' & -> & Hspec).
    exists autos, seen'. split; [done|].
    apply blockSpec_skip; [by left|done]. }
  case_bool_decide as HS.
  { destruct (IH (extendPath cp seg) result seen) as (autos & seen' & -> & Hspec).
    exists autos, seen'. split; [done|].
    apply blockSpec_skip; [by right|done]. }
  case_bool_decide as Hlast; simpl.
  - subst rest. simpl. exists [], ({[extendPath cp seg]} ∪ seen).
    split; [by rewrite app_nil_r|].
    repeat split.
    + set_solver.
    + intros p Hp. right. set_solver.
    + intros q Hq. apply elem_of_union in Hq as [->%elem_of_singleton|?];
        [|by left]. right. split; [by left|done].
    + intros i x Hx. by inversion Hx.
    + intros [|j] p Hj Hlen; simpl in *; lia.
    + constructor.
  - destruct (IH (extendPath cp seg)
                (result ++ [autoParentField (extendPath cp seg)
                              (endsWithBrackets seg)])
                ({[extendPath cp seg]} ∪ seen))
      as (autos & seen' & -> & Hspec).
    exists (autoParentField (extendPath cp seg) (endsWithBrackets seg) :: autos),
           seen'.
    split; [by rewrite <- app_assoc|].
    apply blockSpec_push; try done.
    destruct rest; [done|]. simpl. done.
Qed.
End ExpansionFacts.

Section ExpansionRun.
Variable userKeys : gset string.

Lemma expandFrom_cons st f fields :
  expandFrom userKeys st (f :: fields)
  = expandFrom userKeys (expandStep userKeys st f) fields.
Proof. reflexivity. Qed.

Lemma expandStep_skip st f :
  hasKey f = false -> expandStep userKeys st f = st.
Proof. unfold expandStep. by intros ->. Qed.

Lemma expandStep_spec result seen f :
  hasKey f = true ->
  exists autos seen',
    expandStep userKeys (result, seen) f
      = (result ++ autos ++ [f], {[keyOf f]} ∪ seen')
    /\ blockSpec userKeys seen (prefixPaths (keyOf f)) autos seen'.
Proof.
  intros Hkey. unfold expandStep, ensureParent. rewrite Hkey. simpl.
  destruct (ensureParent_go_spec userKeys EmptyString (split_dot (keyOf f))
              result seen) as (autos & seen' & -> & Hspec).
  exists autos, seen'. split; [|done]. simpl.
  rewrite <- app_assoc.
  case_bool_decide as Hin; [|done].
  f_equal. set_solver.
Qed.

Lemma interleaved_app u1 o1 u2 o2 :
  interleaved u1 o1 -> interleaved u2 o2 -> interleaved (u1 ++ u2) (o1 ++ o2).
Proof. induction 1; simpl; intros; try done; by constructor; auto. Qed.

Lemma interleaved_autos autos :
  (forall x, x ∈ autos -> exists p a, x = autoParentField p a) ->
  interleaved [] autos.
Proof.
  induction autos as [|x autos IH]; intros Hall; [constructor|].
  destruct (Hall x) as (p & a & ->); [by left|].
  constructor. apply IH. intros y Hy. apply Hall. by right.
Qed.

Lemma interleaved_sublist user out : interleaved user out -> user `sublist_of` out.
Proof. induction 1; by constructor. Qed.

Lemma blockSpec_autos seen paths autos seen' :
  blockSpec userKeys seen paths autos seen' ->
  forall x, x ∈ autos -> exists p a, x = autoParentField p a.
Proof.
  intros (_ & _ & _ & Hautos & _) x Hx.
  apply list_elem_of_lookup in Hx as [i Hi].
  destruct (Hautos i x Hi) as (p & a & j & -> & _). eauto.
Qed.

Lemma expandFrom_interleaved fields result seen :
  exists out seen',
    expandFrom userKeys (result, seen) fields = (result ++ out, seen')
    /\ interleaved (filter (fun f => hasKey f = true) fields) out.
Proof.
  revert result seen. induction fields as [|f fields IH]; intros result seen.
  { exists [], seen. split; [by rewrite app_nil_r|constructor]. }
  rewrite expandFrom_cons.
  destruct (hasKey f) eqn:Hkey.
  - destruct (expandStep_spec result seen f Hkey) as (autos & s1 & -> & Hspec).
    destruct (IH (result ++ autos ++ [f]) ({[keyOf f]} ∪ s1))
      as (out & s2 & -> & Hout).
    exists (autos ++ [f] ++ out), s2.
    split; [by rewrite <- !app_assoc|].
    rewrite filter_cons_True by done.
    apply (interleaved_app [] autos (f :: _) (f :: out)).
    + eapply interleaved_autos, blockSpec_autos, Hspec.
    + by constructor.
  - rewrite expandStep_skip by done.
    destruct (IH result seen) as (out & s2 & -> & Hout).
    exists out, s2. split; [done|].
    rewrite filter_cons_False; [done|]. by rewrite Hkey.
Qed.
End ExpansionRun.

Lemma expand_interleaved fields :
  interleaved (filter (fun f => hasKey f = true) fields)
    (expandFieldListWithParents fields).
Proof.
  unfold expandFieldListWithParents.
  destruct (expandFrom_interleaved (userKeysOf fields) fields [] ∅)
    as (out & seen' & Hrun & Hout).
  unfold expandFrom in Hrun. rewrite Hrun. done.
Qed.

(** C9: for every field list, the output of [expandFieldListWithParents]
    is the list of the input fields that have a non-empty key, unmodified
    and in input order, with auto-parent records inserted between them; in
    particular the caller's fields form a subsequence of the output. *)
Theorem expand_keeps_user_fields (fields : list Field) :
  interleaved (filter (fun f => hasKey f = true) fields)
    (expandFieldListWithParents fields)
  /\ filter (fun f => hasKey f = true) fields
       `sublist_of` expandFieldListWithParents fields.
Proof.
  split; [apply expand_interleaved|].
  apply interleaved_sublist, expand_interleaved.
Qed.

Section Coverage.
Variable userKeys : gset string.

Lemma pathsFrom_nonempty cp segs p :
  Forall (fun seg => plainSegment (cleanSeg seg) = true) segs ->
  p ∈ pathsFrom cp segs -> p <> EmptyString.
Proof.
  revert cp. induction segs as [|s segs IH]; intros cp Hwf Hp; simpl in Hp;
    [by inversion Hp|].
  inversion Hwf as [|? ? Hs Hrest]; subst.
  apply elem_of_cons in Hp as [->|Hp]; [by apply extendPath_nonempty|].
  by eapply IH.
Qed.

Lemma prefixPaths_nonempty k p :
  wellFormedKey k = true -> p ∈ prefixPaths k -> p <> EmptyString.
Proof.
  intros Hwf. apply pathsFrom_nonempty. by apply wellFormedKey_segments.
Qed.

Lemma prefixPaths_last k j p :
  prefixPaths k !! j = Some p -> S j = length (prefixPaths k) ->
  strippedPath k = p.
Proof.
  intros Hj Hlen. unfold strippedPath. rewrite last_lookup.
  replace (Init.Nat.pred (length (prefixPaths k))) with j by lia.
  by rewrite Hj.
Qed.

Lemma hasKey_autoParentField p a :
  p <> EmptyString -> hasKey (autoParentField p a) = true.
Proof.
  intros Hp. unfold hasKey. simpl. by rewrite bool_decide_eq_false_2.
Qed.

Lemma filter_all_undeclared autos :
  (forall y, y ∈ autos -> keyOf y ∉ userKeys) ->
  filter (fun q => q ∉ userKeys) (map keyOf autos) = map keyOf autos.
Proof.
  induction autos as [|x autos IH]; intros Hall; [done|].
  simpl. rewrite filter_cons_True by (apply Hall; by left).
  f_equal. apply IH. intros y Hy. apply Hall. by right.
Qed.

(** One field of a well-formed list keeps the invariant. *)
Lemma covered_step result seen f autos seen' :
  hasKey f = true -> wellFormedKey (keyOf f) = true ->
  keyOf f ∈ userKeys ->
  blockSpec userKeys seen (prefixPaths (keyOf f)) autos seen' ->
  covered userKeys (result, seen) ->
  covered userKeys (result ++ autos ++ [f], {[keyOf f]} ∪ seen').
Proof.
  intros Hkey Hwf HkU (Hs1 & Hs2 & Hs3 & Hautos & Hcov & Hnd)
         (I1 & I2 & I3 & I4 & I5).
  simpl in *.
  assert (Hauto_key : forall i x, autos !! i = Some x ->
            exists j, prefixPaths (keyOf f) !! j = Some (keyOf x)
                      /\ (keyOf x ∉ userKeys) /\ (keyOf x ∉ seen)
                      /\ strippedPath (keyOf x) = keyOf x).
  { intros i x Hx.
    destruct (Hautos i x Hx) as (p & a & j & -> & HU & HS & Hj & _).
    exists j. repeat split; try done.
    by apply (strippedPath_of_prefix (keyOf f) j). }
  (* a proper prefix of the field is declared or emitted before the field *)
  assert (Hprefix : forall j q,
            prefixPaths (keyOf f) !! j = Some q ->
            S j < length (prefixPaths (keyOf f)) ->
            q ∈ userKeys
            \/ (exists y, y ∈ result /\ strippedPath (keyOf y) = q)
            \/ (exists y, y ∈ autos /\ keyOf y = q
                          /\ strippedPath (keyOf y) = q)).
  { intros j q Hj Hlen.
    destruct (Hcov j q Hj Hlen) as [?|[Hseen|(y & Hy & Hyq)]]; [by left| |].
    - destruct (I1 q Hseen) as [?|?]; [by left|by right; left].
    - right; right. exists y. repeat split; try done.
      apply list_elem_of_lookup in Hy as [i Hi].
      destruct (Hauto_key i y Hi) as (_ & _ & _ & _ & Hstrip).
      by rewrite Hstrip. }
  unfold covered. simpl. repeat split.
  - (* seen paths are backed *)
    intros q Hq.
    apply elem_of_union in Hq as [->%elem_of_singleton|Hq]; [by left|].
    destruct (Hs3 q Hq) as [Hseen|[Hpath HnU]].
    { destruct (I1 q Hseen) as [?|(y & Hy & ?)]; [by left|].
      right. exists y. split; [|done]. apply elem_of_app. by left. }
    right. apply list_elem_of_lookup in Hpath as [j Hj].
    destruct (decide (S j < length (prefixPaths (keyOf f)))) as [Hlt|Hge].
    + destruct (Hprefix j q Hj Hlt) as [?|[(y & Hy & ?)|(y & Hy & _ & ?)]];
        [done| |].
      * exists y. split; [|done]. apply elem_of_app. by left.
      * exists y. split; [|done]. rewrite !elem_of_app. right. by left.
    + exists f. split; [rewrite !elem_of_app; right; right; by left|].
      apply (prefixPaths_last _ j); [done|].
      apply lookup_lt_Some in Hj. lia.
  - (* proper prefixes come earlier *)
    intros i x q Hi Hq.
    destruct (decide (i < length result)) as [Hlt|Hge].
    { rewrite lookup_app_l in Hi by done.
      destruct (I2 i x q Hi Hq) as [?|(j & y & ? & Hj & ?)]; [by left|].
      right. exists j, y. repeat split; try done.
      rewrite lookup_app_l by lia. done. }
    rewrite lookup_app_r in Hi by lia.
    assert (Hfrom_result : forall y, y ∈ result -> strippedPath (keyOf y) = q ->
              exists j y', j < i /\ (result ++ autos ++ [f]) !! j = Some y'
                           /\ strippedPath (keyOf y') = q).
    { intros y Hy Hyq. apply list_elem_of_lookup in Hy as [j Hj].
      exists j, y. pose proof (lookup_lt_Some _ _ _ Hj).
      repeat split; [lia| |done]. by rewrite lookup_app_l. }
    destruct (decide (i - length result < length autos)) as [Hlt|Hge'].
    + rewrite lookup_app_l in Hi by done.
      destruct (Hautos _ x Hi)
        as (p & a & j & -> & HU & HS & Hj & Hlen & Hbefore).
      simpl in Hq.
      destruct (properPrefix_of_prefix _ _ _ _ Hwf Hj Hq) as (j' & Hlt' & Hj').
      destruct (Hbefore j' q Hlt' Hj') as [?|[Hseen|(i' & y & Hi' & Hy & Hyq)]];
        [by left| |].
      * destruct (I1 q Hseen) as [?|(y & Hy & Hyq)]; [by left|].
        right. by apply (Hfrom_result y).
      * right. exists (length result + i'), y. repeat split; [lia| |].
        -- rewrite lookup_app_r by lia.
           replace (length result + i' - length result) with i' by lia.
           rewrite lookup_app_l; [done|]. by eapply lookup_lt_Some.
        -- destruct (Hauto_key i' y Hy) as (_ & _ & _ & _ & Hstrip).
           by rewrite Hstrip.
    + rewrite lookup_app_r in Hi by lia.
      assert (Hx : x = f).
      { destruct (i - length result - length autos) as [|n]; simpl in Hi;
          [by simplify_eq|]. by destruct n. }
      subst x. destruct Hq as (j & Hj & Hlen).
      destruct (Hprefix j q Hj Hlen) as [?|[(y & Hy & ?)|(y & Hy & _ & Hyq)]];
        [by left| |].
      * right. by apply (Hfrom_result y).
      * right. apply list_elem_of_lookup in Hy as [i' Hi'].
        pose proof (lookup_lt_Some _ _ _ Hi').
        exists (length result + i'), y. repeat split; [lia| |done].
        rewrite lookup_app_r by lia.
        replace (length result + i' - length result) with i' by lia.
        by rewrite lookup_app_l.
  - (* every emitted key is declared or seen *)
    intros y Hy. rewrite !elem_of_app in Hy.
    destruct Hy as [Hy|[Hy|Hy]].
    + destruct (I3 y Hy) as [?|?]; [by left|right; set_solver].
    + apply list_elem_of_lookup in Hy as [i Hi].
      destruct (Hauto_key i y Hi) as (j & Hj & _).
      destruct (Hs2 (keyOf y)) as [?|?];
        [by eapply list_elem_of_lookup_2|by left|right; set_solver].
    + apply list_elem_of_singleton in Hy as ->. right. set_solver.
  - (* undeclared keys are emitted once *)
    rewrite !map_app, !filter_app. simpl.
    rewrite (filter_cons_False _ (keyOf f)) by (intros Hn; by apply Hn).
    rewrite filter_nil, app_nil_r.
    rewrite (filter_all_undeclared autos).
    2:{ intros y Hy. apply list_elem_of_lookup in Hy as [i Hi].
        by destruct (Hauto_key i y Hi) as (_ & _ & ? & _). }
    apply NoDup_app. repeat split; [done| |done].
    intros q Hq Hq'. apply list_elem_of_filter in Hq as [HqU Hq].
    rewrite list_elem_of_In, in_map_iff in Hq, Hq'.
    destruct Hq as (y & <- & Hy%list_elem_of_In).
    destruct Hq' as (y' & Heq & Hy'%list_elem_of_In).
    apply list_elem_of_lookup in Hy' as [i Hi].
    destruct (Hauto_key i y' Hi) as (_ & _ & _ & HnS & _).
    destruct (I3 y Hy) as [?|?]; [done|]. congruence.
  - (* every emitted field has a key *)
    intros y Hy. rewrite !elem_of_app in Hy.
    destruct Hy as [Hy|[Hy|Hy]]; [by apply I5| |].
    + apply list_elem_of_lookup in Hy as [i Hi].
      destruct (Hautos i y Hi) as (p & a & j & -> & _ & _ & Hj & _).
      apply hasKey_autoParentField.
      apply (prefixPaths_nonempty (keyOf f)); [done|].
      by eapply list_elem_of_lookup_2.
    + by apply list_elem_of_singleton in Hy as ->.
Qed.
End Coverage.

Section ExpansionTheorems.

Lemma userKeysOf_elem fields f :
  f ∈ fields -> hasKey f = true -> keyOf f ∈ userKeysOf fields.
Proof.
  intros Hin Hkey. unfold userKeysOf. apply elem_of_list_to_set.
  rewrite list_elem_of_In. apply in_map. apply list_elem_of_In.
  by apply list_elem_of_filter.
Qed.

Lemma userKeysOf_inv fields q :
  q ∈ userKeysOf fields ->
  exists f, f ∈ fields /\ hasKey f = true /\ keyOf f = q.
Proof.
  unfold userKeysOf. rewrite elem_of_list_to_set, list_elem_of_In, in_map_iff.
  intros (f & Hq & Hf%list_elem_of_In).
  apply list_elem_of_filter in Hf as [Hkey Hf]. eauto.
Qed.

Lemma wellFormedFields_elem fields f :
  wellFormedFields fields = true -> f ∈ fields -> hasKey f = true ->
  wellFormedKey (keyOf f) = true.
Proof.
  intros Hwf Hin Hkey. unfold wellFormedFields in Hwf.
  apply forallb_Forall_true in Hwf.
  rewrite Forall_forall in Hwf. specialize (Hwf f Hin).
  by rewrite Hkey in Hwf.
Qed.

Lemma expandFrom_covered userKeys fields st :
  (forall f, f ∈ fields -> hasKey f = true ->
     wellFormedKey (keyOf f) = true /\ keyOf f ∈ userKeys) ->
  covered userKeys st -> covered userKeys (expandFrom userKeys st fields).
Proof.
  revert st. induction fields as [|f fields IH]; intros [result seen] Hok Hc;
    [done|].
  rewrite expandFrom_cons.
  assert (Hrest : forall g, g ∈ fields -> hasKey g = true ->
            wellFormedKey (keyOf g) = true /\ keyOf g ∈ userKeys)
    by (intros g Hg; apply Hok; by right).
  destruct (hasKey f) eqn:Hkey.
  - destruct (expandStep_spec userKeys result seen f Hkey)
      as (autos & s1 & -> & Hspec).
    destruct (Hok f) as [Hwf HU]; [by left|done|].
    apply IH; [done|]. by apply (covered_step _ _ seen).
  - rewrite expandStep_skip by done. by apply IH.
Qed.

Lemma covered_initial userKeys : covered userKeys ([], ∅).
Proof.
  repeat split; simpl; try (intros; set_solver).
  rewrite filter_nil. constructor.
Qed.

Lemma expand_covered fields :
  wellFormedFields fields = true ->
  covered (userKeysOf fields)
    (expandFrom (userKeysOf fields) ([], ∅) fields).
Proof.
  intros Hwf. apply expandFrom_covered; [|apply covered_initial].
  intros f Hin Hkey. split.
  - by apply (wellFormedFields_elem fields).
  - by apply userKeysOf_elem.
Qed.

Lemma strippedPath_in_prefixPaths k : strippedPath k ∈ prefixPaths k.
Proof.
  unfold strippedPath, prefixPaths.
  pose proof (split_dot_nonempty k) as Hne.
  destruct (split_dot k) as [|s segs]; [done|].
  simpl. remember (extendPath EmptyString s :: _) as paths eqn:Hp.
  destruct (last paths) as [p|] eqn:Hlast.
  - simpl. rewrite last_lookup in Hlast. by eapply list_elem_of_lookup_2.
  - apply last_None in Hlast. by subst.
Qed.

(** A list in which every proper prefix is declared or is the stripped
    path of an earlier field is expanded to itself. *)
Lemma expandFrom_quiet userKeys (xs processed : list Field) result seen :
  (forall y, y ∈ processed ->
     strippedPath (keyOf y) ∈ userKeys \/ strippedPath (keyOf y) ∈ seen) ->
  (forall x, x ∈ xs -> hasKey x = true) ->
  (forall i x q, xs !! i = Some x -> properPrefix q (keyOf x) ->
     q ∈ userKeys
     \/ exists y, (y ∈ processed \/ exists j, j < i /\ xs !! j = Some y)
                  /\ strippedPath (keyOf y) = q) ->
  exists seen', expandFrom userKeys (result, seen) xs = (result ++ xs, seen').
Proof.
  revert processed result seen.
  induction xs as [|x xs IH]; intros processed result seen Hproc Hkeys Hcov.
  { exists seen. by rewrite app_nil_r. }
  rewrite expandFrom_cons.
  destruct (expandStep_spec userKeys result seen x) as (autos & s1 & -> & Hspec);
    [apply Hkeys; by left|].
  destruct Hspec as (Hs1 & Hs2 & _ & Hautos & _).
  assert (Hnone : autos = []).
  { destruct autos as [|a autos]; [done|]. exfalso.
    destruct (Hautos 0 a eq_refl) as (p & b & j & _ & HU & HS & Hj & Hlen & _).
    destruct (Hcov 0 x p eq_refl) as [?|(y & [Hy|(j' & ? & _)] & Hyp)];
      [by exists j|done| |lia].
    destruct (Hproc y Hy) as [?|?]; congruence. }
  subst autos. simpl.
  destruct (IH (x :: processed) (result ++ [x]) ({[keyOf x]} ∪ s1))
    as (seen' & Hrun).
  - intros y [->|Hy]%elem_of_cons.
    + destruct (Hs2 (strippedPath (keyOf x))) as [?|?];
        [apply strippedPath_in_prefixPaths|by left|right; set_solver].
    + destruct (Hproc y Hy) as [?|?]; [by left|right; set_solver].
  - intros y Hy. apply Hkeys. by right.
  - intros i y q Hi Hq.
    destruct (Hcov (S i) y q Hi Hq) as [?|(z & [Hz|(j & Hlt & Hj)] & Hzq)];
      [by left| |].
    + right. exists z. split; [left; by right|done].
    + right. exists z. split; [|done]. destruct j as [|j]; simpl in Hj.
      * simplify_eq. left. by left.
      * right. exists j. split; [lia|done].
  - exists seen'. rewrite Hrun. by rewrite <- app_assoc.
Qed.

Lemma expand_out_covered fields :
  wellFormedFields fields = true ->
  let out := expandFieldListWithParents fields in
  (forall x, x ∈ out -> hasKey x = true)
  /\ (forall i x q, out !! i = Some x -> properPrefix q (keyOf x) ->
        q ∈ userKeysOf fields
        \/ exists j y, j < i /\ out !! j = Some y
                       /\ strippedPath (keyOf y) = q)
  /\ NoDup (filter (fun q => q ∉ userKeysOf fields) (map keyOf out)).
Proof.
  intros Hwf out.
  destruct (expand_covered fields Hwf) as (_ & I2 & _ & I4 & I5).
  unfold out, expandFieldListWithParents. fold (expandFrom (userKeysOf fields)).
  done.
Qed.

Lemma expand_declared_present fields q :
  q ∈ userKeysOf fields ->
  exists y, y ∈ expandFieldListWithParents fields
            /\ hasKey y = true /\ keyOf y = q.
Proof.
  intros (f & Hin & Hkey & Hq)%userKeysOf_inv.
  exists f. split; [|done].
  pose proof (interleaved_sublist _ _ (expand_interleaved fields)) as Hsub.
  apply (sublist_subseteq _ _ Hsub). by apply list_elem_of_filter.
Qed.
End ExpansionTheorems.

Section SingleMarker.
Variable userKeys : gset string.















End SingleMarker.






(** The condition on markers is needed: in the expansion of
    [[a[][].b.c; a[]]] the first output field is the auto-parent [a[].b],
    and its prefix [a] is neither declared nor the key or stripped path of
    an earlier field. *)
Example expand_coverage_needs_single_marker :
  let out := expandFieldListWithParents doubleMarker in
  ~ (forall i x q, out !! i = Some x -> properPrefix q (keyOf x) ->
       q ∈ userKeysOf doubleMarker
       \/ exists j y, j < i /\ out !! j = Some y
                      /\ (keyOf y = q \/ strippedPath (keyOf y) = q)).
Proof.
  intros out Hall.
  destruct (Hall 0 (autoParentField "a[].b" false) "a")
    as [Hdecl|(j & y & Hlt & _)].
  - vm_compute. reflexivity.
  - exists 0. split; [vm_compute; reflexivity|]. vm_compute. lia.
  - assert (Hno : bool_decide ("a" ∈ userKeysOf doubleMarker) = false)
      by (vm_compute; reflexivity).
    apply bool_decide_eq_false in Hno. exact (Hno Hdecl).
  - lia.
Qed.



(** C5, as stated, fails: for the single field [.a.b] the expansion is
    [[""; "a"; ".a.b"]] (two auto-parents, the first with the empty key);
    expanding again drops the entry with the empty key and makes it anew
    after [a], which gives [["a"; ""; ".a.b"]]. *)
Lemma expand_not_idempotent_on_empty_segment :
  expandFieldListWithParents (expandFieldListWithParents leadingDot)
  <> expandFieldListWithParents leadingDot.
Proof.
  intros Heq. apply (f_equal (map keyOf)) in Heq.
  vm_compute in Heq. discriminate.
Qed.

(** The second condition of well-formedness is needed as well: with a
    doubly marked segment the auto-parent [a[].b] has the prefix [a], which
    nothing declares or precedes, and a second expansion adds it. *)
Example expand_double_marker :
  map keyOf (expandFieldListWithParents doubleMarker)
  = ["a[].b"; "a[][].b.c"; "a[]"]
  /\ map keyOf (expandFieldListWithParents
                  (expandFieldListWithParents doubleMarker))
     = ["a"; "a[].b"; "a[][].b.c"; "a[]"].
Proof. split; vm_compute; reflexivity. Qed.

(** C5 (amended): for every field list whose keys are well-formed paths
    (no empty segment, at most one array marker per segment), expanding
    the expansion gives the expansion back, however often it is repeated;
    so no ancestor entry is added by a repeated expansion. *)
Theorem expand_idempotent (fields : list Field) :
  wellFormedFields fields = true ->
  expandFieldListWithParents (expandFieldListWithParents fields)
  = expandFieldListWithParents fields
  /\ forall n,
       Nat.iter n expandFieldListWithParents (expandFieldListWithParents fields)
       = expandFieldListWithParents fields.
Proof.
  intros Hwf.
  assert (Honce : expandFieldListWithParents (expandFieldListWithParents fields)
                  = expandFieldListWithParents fields).
  { destruct (expand_out_covered fields Hwf) as (Hkeys & Hcov & _).
    set (out := expandFieldListWithParents fields) in *.
    destruct (expandFrom_quiet (userKeysOf out) out [] [] ∅) as (seen' & Hrun).
    - intros y Hy. by inversion Hy.
    - exact Hkeys.
    - intros i x q Hi Hq.
      destruct (Hcov i x q Hi Hq) as [Hdecl|(j & y & Hlt & Hj & Hyq)].
      + left. destruct (expand_declared_present fields q Hdecl)
          as (y & Hy & Hkey & <-).
        by apply userKeysOf_elem.
      + right. exists y. split; [|done]. right. by exists j.
    - change ((expandFrom (userKeysOf out) ([], ∅) out).1 = out).
      by rewrite Hrun. }
  split; [exact Honce|].
  induction n as [|n IH]; [done|]. simpl. by rewrite IH.
Qed.

Lemma expand_idempotent_witness :
  let fields := [userField "data.items[].id" "identifier" None;
                 userField "data" "payload" None;
                 userField "data.items[].name" "label" None] in
  wellFormedFields fields = true
  /\ expandFieldListWithParents (expandFieldListWithParents fields)
     = expandFieldListWithParents fields.
Proof.
  intros fields.
  assert (Hwf : wellFormedFields fields = true) by (vm_compute; reflexivity).
  split; [exact Hwf|].
  exact (proj1 (expand_idempotent fields Hwf)).
Defined.

(* ===================================================================== *)
(** * Further properties of the surrounding functions *)
(* ===================================================================== *)

(** ** Security mode *)

(** The permissions form a chain in every mode, known or not: reading is
    always allowed, writing exactly in the modes [limited] and [full], and
    deleting exactly in the mode [full] (the mode is compared without
    regard to case); so whoever may delete may write, and an unknown mode
    allows reading only. *)
Theorem checkSecurityPermission_chain (mode : string) :
  let allowed := fun op => (checkSecurityPermission mode op).1 in
  allowed OpRead = true
  /\ (allowed OpWrite = true
      <-> toLowerCase mode = "limited" \/ toLowerCase mode = "full")
  /\ (allowed OpDelete = true <-> toLowerCase mode = "full")
  /\ (allowed OpDelete = true -> allowed OpWrite = true).
Proof.
  unfold checkSecurityPermission. simpl.
  repeat case_bool_decide; simpl; repeat split; intros; try done;
    try congruence; try (by left); try (by right);
    try (destruct_or?; congruence).
Qed.

Lemma checkSecurityPermission_chain_witness :
  (checkSecurityPermission "Full" OpDelete).1 = true
  /\ (checkSecurityPermission "Full" OpWrite).1 = true.
Proof.
  destruct (checkSecurityPermission_chain "Full") as (_ & _ & Hdel & Himp).
  assert (Hd : (checkSecurityPermission "Full" OpDelete).1 = true)
    by (apply Hdel; vm_compute; reflexivity).
  split; [exact Hd|exact (Himp Hd)].
Defined.

(** ** URL prefix *)

Section UrlPrefix.

Lemma startsWith_app p x : startsWith (p +:+ x) p = true.
Proof.
  induction p as [|c p IH]; simpl; [done|].
  by rewrite bool_decide_eq_true_2, IH.
Qed.

Lemma append_assoc (a b c : string) : (a +:+ b) +:+ c = a +:+ (b +:+ c).
Proof.
  induction a as [|x a IH]; [done|].
  change (String x ((a +:+ b) +:+ c) = String x (a +:+ (b +:+ c))).
  by rewrite IH.
Qed.

Lemma dropLast1_slash p :
  endsWithSlash p = true -> dropLast1 p +:+ "/" = p.
Proof.
  induction p as [|c p IH]; [done|].
  destruct p as [|d p].
  - simpl. intros Hc. apply bool_decide_eq_true in Hc. by subst.
  - intros Hp.
    change (endsWithSlash (String d p) = true) in Hp.
    change (String c (dropLast1 (String d p) +:+ "/") = String c (String d p)).
    by rewrite (IH Hp).
Qed.

Lemma startsWith_inv s p :
  startsWith s p = true -> exists tail, s = p +:+ tail.
Proof.
  revert s. induction p as [|c p IH]; intros s Hs; [by exists s|].
  destruct s as [|d s]; [done|]. simpl in Hs.
  apply andb_true_iff in Hs as [Hd Hs].
  apply bool_decide_eq_true in Hd. subst.
  destruct (IH s Hs) as [tail ->]. by exists tail.
Qed.

Lemma applyUrlPrefix_shape P url :
  url <> EmptyString -> P <> EmptyString ->
  (exists tail, applyUrlPrefix P url = P +:+ tail)
  /\ (exists head, applyUrlPrefix P url = head +:+ url).
Proof.
  intros Hurl HP. unfold applyUrlPrefix.
  rewrite !bool_decide_eq_false_2 by done. cbn [orb].
  destruct (startsWith url P) eqn:Hstart.
  { split; [by apply startsWith_inv|by exists EmptyString]. }
  destruct (endsWithSlash P) eqn:Hslash;
    destruct (startsWith url "/") eqn:Hlead.
  - apply startsWith_inv in Hlead as [rest ->]. split.
    + exists rest. by rewrite <- append_assoc, dropLast1_slash.
    + by exists (dropLast1 P).
  - split.
    + exists url. by rewrite <- append_assoc, dropLast1_slash.
    + exists P. by rewrite <- append_assoc, dropLast1_slash.
  - split; [by exists url|by exists P].
  - split; [by exists ("/" +:+ url)|].
    exists (P +:+ "/"). by rewrite append_assoc.
Qed.
End UrlPrefix.

(** The prefixed URL starts with the configured prefix and ends with the
    URL it was given (nothing of the URL is lost), whenever both the URL
    and the prefix are non-empty. *)
Theorem applyUrlPrefix_prefix_and_tail (P url : string) :
  url <> EmptyString -> P <> EmptyString ->
  startsWith (applyUrlPrefix P url) P = true
  /\ exists head, applyUrlPrefix P url = head +:+ url.
Proof.
  intros Hurl HP.
  destruct (applyUrlPrefix_shape P url Hurl HP) as ((tail & Heq) & Htail).
  split; [|exact Htail]. rewrite Heq. apply startsWith_app.
Qed.

Lemma applyUrlPrefix_prefix_and_tail_witness :
  startsWith (applyUrlPrefix "{{host}}/" "api/users") "{{host}}/" = true
  /\ exists head, applyUrlPrefix "{{host}}/" "api/users" = head +:+ "api/users".
Proof.
  apply applyUrlPrefix_prefix_and_tail; discriminate.
Defined.

(** Applying the prefix twice is the same as applying it once, for every
    URL and every prefix. *)
Theorem applyUrlPrefix_idempotent (P url : string) :
  applyUrlPrefix P (applyUrlPrefix P url) = applyUrlPrefix P url.
Proof.
  destruct (decide (url = EmptyString)) as [->|Hurl].
  { unfold applyUrlPrefix. simpl. done. }
  destruct (decide (P = EmptyString)) as [->|HP].
  { unfold applyUrlPrefix. by rewrite !orb_true_r. }
  destruct (applyUrlPrefix_shape P url Hurl HP) as ((tail & Heq) & _).
  rewrite Heq. unfold applyUrlPrefix at 1.
  rewrite startsWith_app.
  by destruct (bool_decide (P +:+ tail = EmptyString) || _).
Qed.

(** ** Descendants of a folder *)

Section Descendants.
Import Listing.

Lemma eachBelow_Some below l deeper :
  eachBelow below l = Some deeper ->
  (forall child, child ∈ l -> isFolder child = true -> is_Some (below child))
  /\ (forall e, e ∈ deeper <->
        exists child sub, child ∈ l /\ isFolder child = true
                          /\ below child = Some sub /\ e ∈ sub).
Proof.
  revert deeper. induction l as [|c l IH]; intros deeper; simpl.
  { intros [= <-]. split.
    - intros child Hc. by inversion Hc.
    - intros e. split; [intros He; by inversion He|].
      intros (child & sub & Hc & _). by inversion Hc. }
  destruct (isFolder c) eqn:Hfolder.
  - destruct (below c) as [sub|] eqn:Hsub; [|done].
    destruct (eachBelow below l) as [more|] eqn:Hmore; [|done].
    intros [= <-]. destruct (IH more eq_refl) as [Hall Hmem]. split.
    + intros child [->|Hc]%elem_of_cons Hf; [eauto|by apply Hall].
    + intros e. rewrite elem_of_app, Hmem. split.
      * intros [He|(child & s & Hc & Hf & Hs & He)].
        -- exists c, sub. repeat split; try done. by left.
        -- exists child, s. repeat split; try done. by right.
      * intros (child & s & [->|Hc]%elem_of_cons & Hf & Hs & He).
        -- left. congruence.
        -- right. by exists child, s.
  - intros Hrun. destruct (IH deeper Hrun) as [Hall Hmem]. split.
    + intros child [->|Hc]%elem_of_cons Hf; [congruence|by apply Hall].
    + intros e. rewrite Hmem. split.
      * intros (child & s & Hc & Hrest). exists child, s.
        split; [by right|done].
      * intros (child & s & [->|Hc]%elem_of_cons & Hf & Hrest);
          [congruence|]. by exists child, s.
Qed.

Lemma eachBelow_total below l :
  (forall child, child ∈ l -> isFolder child = true -> is_Some (below child)) ->
  is_Some (eachBelow below l).
Proof.
  induction l as [|c l IH]; intros Hall; simpl; [eauto|].
  destruct IH as [more Hmore]; [intros ? ?; apply Hall; by right|].
  rewrite Hmore. destruct (isFolder c) eqn:Hf; [|eauto].
  destruct (Hall c) as [sub ->]; [by left|done|eauto].
Qed.

Lemma eachBelow_empty below l :
  (forall child, child ∈ l -> isFolder child = true -> below child = Some []) ->
  eachBelow below l = Some [].
Proof.
  induction l as [|c l IH]; intros Hall; simpl; [done|].
  rewrite IH by (intros ? ?; apply Hall; by right).
  destruct (isFolder c) eqn:Hf; [|done].
  by rewrite (Hall c) by (by left || done).
Qed.

Lemma eachBelow_None below l child :
  child ∈ l -> isFolder child = true -> below child = None ->
  eachBelow below l = None.
Proof.
  induction l as [|c l IH]; intros Hin Hf Hnone; [by inversion Hin|].
  simpl. apply elem_of_cons in Hin as [<-|Hin].
  - by rewrite Hf, Hnone.
  - rewrite (IH Hin Hf Hnone). destruct (isFolder c); [|done].
    by destruct (below c).
Qed.

Lemma isChildOf_filter (items : list Entry) parentId e :
  e ∈ filter (fun item => isChildOf parentId item = true) items
  <-> e ∈ items /\ parent_id e = Some parentId.
Proof.
  rewrite list_elem_of_filter. unfold isChildOf.
  rewrite bool_decide_eq_true. tauto.
Qed.

Lemma getChildrenRecursively_members fuel items parentId maxDepth currentDepth r :
  getChildrenRecursively fuel items parentId maxDepth currentDepth = Some r ->
  forall e, e ∈ r <->
    exists n, descendant items parentId n e
              /\ forall d, maxDepth = Some d -> (currentDepth + Z.of_nat n <= d)%Z.
Proof.
  revert parentId currentDepth r.
  induction fuel as [|fuel IH]; intros parentId cd r; [done|].
  simpl. destruct (depthReached maxDepth cd) eqn:Hdepth.
  { intros [= <-] e. split; [intros He; by inversion He|].
    intros (n & Hdesc & Hbound). exfalso.
    unfold depthReached in Hdepth. destruct maxDepth as [d|]; [|done].
    apply Z.leb_le in Hdepth. specialize (Hbound d eq_refl).
    inversion Hdesc; subst; lia. }
  destruct (eachBelow _ _) as [deeper|] eqn:Heach; [|done].
  intros [= <-] e.
  destruct (eachBelow_Some _ _ _ Heach) as [_ Hmem].
  assert (Hroom : forall d, maxDepth = Some d -> (cd + 1 <= d)%Z).
  { intros d ->. simpl in Hdepth. apply Z.leb_gt in Hdepth. lia. }
  rewrite elem_of_app, isChildOf_filter, Hmem. split.
  - intros [[Hin Hpar]|(child & sub & Hc & Hf & Hsub & He)].
    + exists 1. split; [by constructor|]. intros d Hd.
      specialize (Hroom d Hd). lia.
    + apply isChildOf_filter in Hc as [Hcin Hcpar].
      apply bool_decide_eq_true in Hf.
      destruct (proj1 (IH _ _ _ Hsub e) He) as (n & Hdesc & Hbound).
      exists (S n). split; [by eapply descendant_deeper|].
      intros d Hd. specialize (Hbound d Hd). lia.
  - intros (n & Hdesc & Hbound).
    inversion Hdesc as [? ? Hin Hpar|? child m ? Hcin Hcpar Hfolder Hsub];
      subst; [by left|].
    right.
    assert (Hc : child ∈ filter (fun item => isChildOf parentId item = true) items)
      by by apply isChildOf_filter.
    assert (Hf : isFolder child = true) by by apply bool_decide_eq_true.
    destruct (eachBelow_Some _ _ _ Heach) as [Hall _].
    destruct (Hall child Hc Hf) as [sub Hrun].
    exists child, sub. repeat split; try done.
    apply (IH _ _ _ Hrun e). exists m. split; [done|].
    intros d Hd. specialize (Hbound d Hd). lia.
Qed.

Lemma getChildrenRecursively_bounded fuel items parentId d currentDepth :
  Z.to_nat (d - currentDepth) < fuel ->
  is_Some (getChildrenRecursively fuel items parentId (Some d) currentDepth).
Proof.
  revert parentId currentDepth.
  induction fuel as [|fuel IH]; intros parentId cd Hfuel; [lia|].
  simpl. destruct (d <=? cd)%Z eqn:Hdepth; [eauto|].
  apply Z.leb_gt in Hdepth.
  destruct (eachBelow_total
              (fun child => getChildrenRecursively fuel items
                              (target_id child) (Some d) (cd + 1)%Z)
              (filter (fun item => isChildOf parentId item = true) items))
    as [deeper ->]; [|eauto].
  intros child _ _. apply IH. lia.
Qed.
End Descendants.

(** With a depth limit the descendant search returns on every item list,
    cyclic or not, and it returns exactly the items that lie at most
    [maxDepth] levels below the folder, every item in between being a
    folder. *)
Theorem getChildrenRecursively_with_limit (items : list Listing.Entry)
    (parentId : string) (maxDepth : Z) :
  exists r,
    Listing.getChildrenRecursively (S (Z.to_nat maxDepth)) items parentId
      (Some maxDepth) 0 = Some r
    /\ forall e, e ∈ r <->
         exists n, Listing.descendant items parentId n e
                   /\ (Z.of_nat n <= maxDepth)%Z.
Proof.
  destruct (getChildrenRecursively_bounded (S (Z.to_nat maxDepth)) items
              parentId maxDepth 0) as [r Hr].
  { replace (maxDepth - 0)%Z with maxDepth by lia. lia. }
  exists r. split; [done|]. intros e.
  rewrite (getChildrenRecursively_members _ _ _ _ _ _ Hr e).
  split; intros (n & Hdesc & Hbound); exists n; split; try done.
  - specialize (Hbound maxDepth eq_refl). lia.
  - intros d [= <-]. lia.
Qed.

(** Without a depth limit the search has no bound of its own; whenever it
    returns, what it returns are exactly the items reachable from the
    folder through folders: it never returns an item from outside the
    folder's subtree and never misses one inside it. *)
Theorem getChildrenRecursively_unlimited (fuel : nat)
    (items : list Listing.Entry) (parentId : string)
    (r : list Listing.Entry) :
  Listing.getChildrenRecursively fuel items parentId None 0 = Some r ->
  forall e, e ∈ r <-> exists n, Listing.descendant items parentId n e.
Proof.
  intros Hr e.
  rewrite (getChildrenRecursively_members _ _ _ _ _ _ Hr e).
  split.
  - intros (n & Hdesc & _). by exists n.
  - intros (n & Hdesc). exists n. split; [done|]. intros d Hd. done.
Qed.

Lemma getChildrenRecursively_unlimited_witness :
  let items := [Listing.mkEntry "d1" (Some "0") "docs" "folder";
                Listing.mkEntry "a1" (Some "d1") "login" "api"] in
  Listing.getChildrenRecursively 3 items "0" None 0 = Some items
  /\ exists n, Listing.descendant items "0" n
                 (Listing.mkEntry "a1" (Some "d1") "login" "api").
Proof.
  intros items.
  assert (Hrun : Listing.getChildrenRecursively 3 items "0" None 0 = Some items)
    by (vm_compute; reflexivity).
  split; [exact Hrun|].
  apply (getChildrenRecursively_unlimited 3 items "0" items Hrun).
  apply elem_of_cons. right. apply elem_of_cons. by left.
Defined.

(** With the limit 1 the search returns the direct children of the folder
    and nothing else, in list order, whatever lies below them. *)
Theorem getChildrenRecursively_depth_one (fuel : nat)
    (items : list Listing.Entry) (parentId : string) :
  Listing.getChildrenRecursively (S (S fuel)) items parentId (Some 1%Z) 0
  = Some (filter (fun item => Listing.parent_id item = Some parentId) items).
Proof.
  change (Listing.getChildrenRecursively (S (S fuel)) items parentId (Some 1%Z) 0)
    with (match Listing.eachBelow
                  (fun child =>
                     Listing.getChildrenRecursively (S fuel) items
                       (Listing.target_id child) (Some 1%Z) 1%Z)
                  (filter (fun item => Listing.isChildOf parentId item = true) items)
          with
          | None => None
          | Some deeper =>
              Some (filter (fun item => Listing.isChildOf parentId item = true) items
                      ++ deeper)
          end).
  rewrite eachBelow_empty by done. rewrite app_nil_r. f_equal.
  apply list_filter_iff. intros e. unfold Listing.isChildOf.
  by rewrite bool_decide_eq_true.
Qed.

(** The search has no cycle guard: if a set of folders is closed under
    "has a folder child in the set" (a folder that is its own parent, two
    folders that are each other's parent, ...), an unlimited search started
    at one of them never returns, however deep it is allowed to nest. *)
Theorem getChildrenRecursively_cycle_never_returns
    (items : list Listing.Entry) (onCycle : string -> Prop) :
  (forall p, onCycle p ->
     exists child, child ∈ items /\ Listing.parent_id child = Some p
                   /\ Listing.target_type child = "folder"
                   /\ onCycle (Listing.target_id child)) ->
  forall fuel p currentDepth, onCycle p ->
    Listing.getChildrenRecursively fuel items p None currentDepth = None.
Proof.
  intros Hclosed. induction fuel as [|fuel IH]; intros p cd Hp; [done|].
  simpl. destruct (Hclosed p Hp) as (child & Hin & Hpar & Hfolder & Hc).
  rewrite (eachBelow_None _ _ child); [done| | |by apply IH].
  - by apply isChildOf_filter.
  - by apply bool_decide_eq_true.
Qed.

Lemma getChildrenRecursively_cycle_never_returns_witness :
  Listing.getChildrenRecursively 1000
    [Listing.mkEntry "f" (Some "f") "loop" "folder"] "f" None 0 = None.
Proof.
  apply (getChildrenRecursively_cycle_never_returns _ (fun p => p = "f"));
    [|reflexivity].
  intros p ->. exists (Listing.mkEntry "f" (Some "f") "loop" "folder").
  repeat split. apply elem_of_cons. by left.
Defined.

(** ** Grouping by parent folder *)

Section Grouping.
Import Listing.
Variable folderMap : gmap string Entry.

Lemma groupStep_Throw items msg :
  fold_left (groupStep folderMap) items (Throw msg) = Throw msg.
Proof. induction items as [|x items IH]; [done|]. simpl. exact IH. Qed.

Lemma joinMembers_cons_same had (x : Entry) items :
  joinMembers folderMap (Some (default [] had ++ [x]))
    (parentName folderMap x) items
  = joinMembers folderMap had (parentName folderMap x) (x :: items).
Proof.
  unfold joinMembers. rewrite filter_cons_True by done.
  destruct (filter _ items) as [|y more]; simpl; [done|].
  by rewrite <- app_assoc.
Qed.

Lemma joinMembers_cons_other had (x : Entry) label items :
  parentName folderMap x <> label ->
  joinMembers folderMap had label (x :: items)
  = joinMembers folderMap had label items.
Proof. intros Hne. unfold joinMembers. by rewrite filter_cons_False. Qed.

Lemma groupByFolder_from_ok items (groups : gmap string (list Entry)) :
  (forall item, item ∈ items -> parentName folderMap item ∉ inheritedNames) ->
  exists result,
    fold_left (groupStep folderMap) items (Ok groups) = Ok result
    /\ forall label,
         result !! label = joinMembers folderMap (groups !! label) label items.
Proof.
  revert groups. induction items as [|x items IH]; intros groups Hsafe.
  { exists groups. split; [done|]. intros label. done. }
  assert (Hrest : forall item, item ∈ items ->
            parentName folderMap item ∉ inheritedNames)
    by (intros item Hin; apply Hsafe; by right).
  assert (Hx : parentName folderMap x ∉ inheritedNames)
    by (apply Hsafe; by left).
  simpl. destruct (groups !! parentName folderMap x) as [members|] eqn:Hhad.
  - destruct (IH (<[parentName folderMap x := members ++ [x]]> groups) Hrest)
      as (result & -> & Hres).
    exists result. split; [done|]. intros label. rewrite Hres.
    destruct (decide (parentName folderMap x = label)) as [<-|Hne].
    + rewrite lookup_insert_eq, Hhad.
      by rewrite <- (joinMembers_cons_same (Some members)).
    + rewrite lookup_insert_ne by done. by rewrite joinMembers_cons_other.
  - rewrite bool_decide_eq_false_2 by done.
    destruct (IH (<[parentName folderMap x := [x]]> groups) Hrest)
      as (result & -> & Hres).
    exists result. split; [done|]. intros label. rewrite Hres.
    destruct (decide (parentName folderMap x = label)) as [<-|Hne].
    + rewrite lookup_insert_eq, Hhad.
      by rewrite <- (joinMembers_cons_same None).
    + rewrite lookup_insert_ne by done. by rewrite joinMembers_cons_other.
Qed.

Lemma groupByFolder_from_throw items (groups : gmap string (list Entry)) :
  (forall label, is_Some (groups !! label) -> label ∉ inheritedNames) ->
  (exists item, item ∈ items /\ parentName folderMap item ∈ inheritedNames) ->
  fold_left (groupStep folderMap) items (Ok groups) = Throw notAFunction.
Proof.
  revert groups. induction items as [|x items IH];
    intros groups Hown (bad & Hin & Hbad); [by inversion Hin|].
  simpl.
  destruct (decide (parentName folderMap x ∈ inheritedNames)) as [Hx|Hx].
  { destruct (groups !! parentName folderMap x) as [members|] eqn:Hhad.
    - exfalso. by apply (Hown (parentName folderMap x)).
    - rewrite bool_decide_eq_true_2 by done. apply groupStep_Throw. }
  apply elem_of_cons in Hin as [->|Hin]; [done|].
  destruct (groups !! parentName folderMap x) as [members|] eqn:Hhad.
  - apply IH; [|by exists bad]. intros label.
    destruct (decide (parentName folderMap x = label)) as [<-|Hne]; [done|].
    rewrite lookup_insert_ne by done. apply Hown.
  - rewrite bool_decide_eq_false_2 by done.
    apply IH; [|by exists bad]. intros label.
    destruct (decide (parentName folderMap x = label)) as [<-|Hne]; [done|].
    rewrite lookup_insert_ne by done. apply Hown.
Qed.
End Grouping.

(** Grouping is an order-preserving partition: when no parent label is a
    property name that objects inherit, [groupByFolder] returns, and under
    each label it holds exactly the items with that parent label, in list
    order; a label without items has no group. *)
Theorem groupByFolder_partition (items allItems : list Listing.Entry) :
  (forall item, item ∈ items ->
     Listing.parentName (Listing.buildFolderMap allItems) item
       ∉ Listing.inheritedNames) ->
  exists groups,
    Listing.groupByFolder items allItems = Ok groups
    /\ forall label,
         groups !! label
         = match filter (fun item =>
                           Listing.parentName (Listing.buildFolderMap allItems)
                             item = label) items with
           | [] => None
           | members => Some members
           end.
Proof.
  intros Hsafe.
  destruct (groupByFolder_from_ok (Listing.buildFolderMap allItems) items ∅ Hsafe)
    as (groups & Hrun & Hgroups).
  exists groups. split; [exact Hrun|]. intros label.
  rewrite Hgroups, lookup_empty. unfold Listing.joinMembers.
  by destruct (filter _ items).
Qed.

Lemma groupByFolder_partition_witness :
  let docs := Listing.mkEntry "d1" (Some "0") "docs" "folder" in
  let login := Listing.mkEntry "a1" (Some "d1") "login" "api" in
  let logout := Listing.mkEntry "a2" (Some "d1") "logout" "api" in
  exists groups,
    Listing.groupByFolder [login; docs; logout] [login; docs; logout]
      = Ok groups
    /\ groups !! "docs" = Some [login; logout].
Proof.
  intros docs login logout.
  destruct (groupByFolder_partition [login; docs; logout] [login; docs; logout])
    as (groups & Hrun & Hgroups).
  { intros item Hin. apply (bool_decide_unpack _).
    repeat (apply elem_of_cons in Hin as [->|Hin];
            [vm_compute; reflexivity|]).
    by inversion Hin. }
  exists groups. split; [exact Hrun|]. rewrite Hgroups.
  vm_compute. reflexivity.
Defined.

(** [groupByFolder] keeps its groups in a plain object: an item whose
    parent folder bears the name of an inherited property ([constructor],
    [toString], ...) finds a value that is not an array under that name,
    and the call throws instead of grouping. *)
Theorem groupByFolder_inherited_name_throws (items allItems : list Listing.Entry) :
  (exists item, item ∈ items
     /\ Listing.parentName (Listing.buildFolderMap allItems) item
          ∈ Listing.inheritedNames) ->
  Listing.groupByFolder items allItems = Throw Listing.notAFunction.
Proof.
  intros Hbad. apply groupByFolder_from_throw; [|done].
  intros label [x Hx]. by rewrite lookup_empty in Hx.
Qed.

Lemma groupByFolder_inherited_name_throws_witness :
  let folder := Listing.mkEntry "d1" (Some "0") "constructor" "folder" in
  let login := Listing.mkEntry "a1" (Some "d1") "login" "api" in
  Listing.groupByFolder [folder; login] [folder; login]
  = Throw Listing.notAFunction.
Proof.
  intros folder login. apply groupByFolder_inherited_name_throws.
  exists login. split; [apply elem_of_cons; right; apply elem_of_cons; by left|].
  apply (bool_decide_unpack _). vm_compute. reflexivity.
Defined.

(** ** Synthesis after expansion *)

Section SynthesisFacts.

(** The body of [fields.forEach] in [buildJsonFromFieldList]. *)
Let synthStep (root : JSON) (field : Field) : JSON :=
  if autoParent field then root
  else if negb (hasKey field) then root
  else setPath root (pathSegments (keyOf field)) (leafValue field).

Lemma synth_interleaved user out :
  interleaved user out ->
  forall root, fold_left synthStep out root = fold_left synthStep user root.
Proof.
  induction 1 as [|x user out _ IH|p a user out _ IH]; intros root; simpl;
    [done|apply IH|apply IH].
Qed.

Lemma synth_keyed fields root :
  fold_left synthStep (filter (fun f => hasKey f = true) fields) root
  = fold_left synthStep fields root.
Proof.
  revert root. induction fields as [|f fields IH]; intros root; [done|].
  destruct (hasKey f) eqn:Hkey.
  - rewrite filter_cons_True by done. simpl. apply IH.
  - rewrite filter_cons_False by (by rewrite Hkey). simpl. rewrite IH.
    f_equal. unfold synthStep. rewrite Hkey. by destruct (autoParent f).
Qed.

Lemma obj_get_replace entries k v :
  is_Some (obj_get entries k) -> obj_get (obj_replace entries k v) k = Some v.
Proof.
  induction entries as [|[k' v'] entries IH]; simpl; [by intros [? ?]|].
  case_bool_decide as Hk.
  - intros _. simpl. by rewrite bool_decide_eq_true_2.
  - intros Hsome. simpl. rewrite bool_decide_eq_false_2 by done. by apply IH.
Qed.

Lemma obj_get_insert_index n entries k v :
  obj_get entries k = None ->
  obj_get (obj_insert_index n k v entries) k = Some v.
Proof.
  induction entries as [|[k' v'] entries IH]; simpl.
  { intros _. by rewrite bool_decide_eq_true_2. }
  case_bool_decide as Hk; [done|]. intros Hnone.
  destruct (arrayIndex k') as [n'|].
  - destruct (n' <? n)%N; simpl.
    + rewrite bool_decide_eq_false_2 by done. by apply IH.
    + by rewrite bool_decide_eq_true_2.
  - simpl. by rewrite bool_decide_eq_true_2.
Qed.

Lemma obj_get_append entries k v :
  obj_get entries k = None -> obj_get (entries ++ [(k, v)]) k = Some v.
Proof.
  induction entries as [|[k' v'] entries IH]; simpl.
  { intros _. by rewrite bool_decide_eq_true_2. }
  case_bool_decide as Hk; [done|]. apply IH.
Qed.

(** Reading a property after writing it gives the value written. *)
Lemma obj_get_set entries k v : obj_get (obj_set entries k v) k = Some v.
Proof.
  unfold obj_set. destruct (obj_get entries k) as [old|] eqn:Hold.
  - apply obj_get_replace. rewrite Hold. eauto.
  - destruct (arrayIndex k); [by apply obj_get_insert_index|].
    by apply obj_get_append.
Qed.

Lemma getPath_setPath current segments val :
  segments <> [] ->
  walksObjects current segments = true ->
  getPath (setPath current segments val) segments = Some val.
Proof.
  revert current. induction segments as [|[k isArray] rest IH];
    intros current Hne Hwalk; [done|].
  simpl in Hwalk. apply andb_true_iff in Hwalk as [Hobj Hrest].
  destruct current as [| | | | |entries]; try done.
  destruct isArray.
  - destruct rest as [|seg rest'].
    + simpl. by rewrite obj_get_set.
    + cbn [setPath getPath js_set js_get]. rewrite obj_get_set.
      cbn [js_get] in Hrest.
      set (arr0 := match obj_get entries k with
                   | Some (JArr l) => l
                   | _ => []
                   end) in *.
      assert (Hhead :
        descendInto (head match arr0 with [] => [JObj []] | _ => arr0 end)
        = descendInto (match obj_get entries k with
                       | Some (JArr l) => head l
                       | _ => None
                       end)).
      { unfold arr0. destruct (obj_get entries k) as [[| | | |l|]|]; try done.
        by destruct l. }
      rewrite Hhead. apply IH; [done|exact Hrest].
  - destruct rest as [|seg rest'].
    + simpl. by rewrite obj_get_set.
    + cbn [setPath getPath js_set js_get]. rewrite obj_get_set.
      apply IH; [done|exact Hrest].
Qed.

Lemma pathSegments_nonempty k : pathSegments k <> [].
Proof.
  unfold pathSegments. pose proof (split_dot_nonempty k).
  by destruct (split_dot k).
Qed.

Lemma buildJson_snoc fields f :
  buildJsonFromFieldList (fields ++ [f])
  = synthStep (buildJsonFromFieldList fields) f.
Proof. unfold buildJsonFromFieldList. by rewrite fold_left_app. Qed.

Lemma buildJson_expand fields :
  buildJsonFromFieldList (expandFieldListWithParents fields)
  = buildJsonFromFieldList fields.
Proof.
  unfold buildJsonFromFieldList.
  change (fold_left synthStep (expandFieldListWithParents fields) (JObj [])
          = fold_left synthStep fields (JObj [])).
  rewrite (synth_interleaved _ _ (expand_interleaved fields)).
  apply synth_keyed.
Qed.

(** Expansion does not change the document: synthesizing from the
    expanded list gives the same value as synthesizing from the caller's
    list, for every field list. *)
Theorem synthesis_ignores_expansion (fields : list Field) :
  buildJsonFromFieldList (expandFieldListWithParents fields)
  = buildJsonFromFieldList fields.
Proof.
  unfold buildJsonFromFieldList.
  change (fold_left synthStep (expandFieldListWithParents fields) (JObj [])
          = fold_left synthStep fields (JObj [])).
  rewrite (synth_interleaved _ _ (expand_interleaved fields)).
  apply synth_keyed.
Qed.

Lemma staysOnObjects_last fields f root :
  staysOnObjectsFrom root (fields ++ [f]) = true ->
  hasKey f = true -> autoParent f = false ->
  walksObjects (fold_left synthStep fields root) (pathSegments (keyOf f))
  = true.
Proof.
  intros Hstays Hkey Hauto. revert root Hstays.
  induction fields as [|g fields IH]; intros root Hstays.
  - simpl in Hstays. rewrite Hauto, Hkey in Hstays. simpl in Hstays.
    apply andb_true_iff in Hstays as [Hstays _].
    by apply andb_true_iff in Hstays as [_ Hwalk].
  - cbn [app staysOnObjectsFrom] in Hstays. cbn [fold_left].
    unfold synthStep at 2.
    destruct (autoParent g); [by apply IH|].
    destruct (hasKey g); cbn [negb] in *; [|by apply IH].
    apply andb_true_iff in Hstays as [_ Hrest]. by apply IH.
Qed.

(** A field is found where its path says: on a list on which the
    synthesis stays on plain objects, reading the path of the last field
    back from the document (element 0 at every array segment) gives its
    example, or its default. *)
Theorem synthesis_field_readable (fields : list Field) (f : Field) :
  staysOnObjects (fields ++ [f]) = true ->
  hasKey f = true -> autoParent f = false ->
  getPath (buildJsonFromFieldList (fields ++ [f])) (pathSegments (keyOf f))
  = Some (leafValue f).
Proof.
  intros Hstays Hkey Hauto.
  pose proof (staysOnObjects_last fields f (JObj []) Hstays Hkey Hauto)
    as Hwalk.
  rewrite buildJson_snoc. unfold synthStep at 1.
  rewrite Hauto, Hkey. simpl.
  apply getPath_setPath; [apply pathSegments_nonempty|done].
Qed.
End SynthesisFacts.

Lemma synthesis_field_readable_witness :
  getPath
    (buildJsonFromFieldList
       ([userField "data.items[].id" "identifier" (Some (JNum 7))]
          ++ [userField "data.items[].name" "label" (Some (JStr "n"))]))
    (pathSegments "data.items[].name")
  = Some (JStr "n").
Proof.
  apply (synthesis_field_readable
           [userField "data.items[].id" "identifier" (Some (JNum 7))]
           (userField "data.items[].name" "label" (Some (JStr "n"))));
    vm_compute; reflexivity.
Defined.

(** ** Description index *)

Section DescriptionFacts.

(** The body of [fields.forEach] in [buildDescMap]. *)
Let descStep (map : gmap string string) (field : Field) : gmap string string :=
  if negb (hasKey field) then map
  else match descOf field with
       | Some d => <[replaceBrackets (keyOf field) := d]> map
       | None => map
       end.

Lemma desc_interleaved user out :
  interleaved user out ->
  forall map, fold_left descStep out map = fold_left descStep user map.
Proof.
  induction 1 as [|x user out _ IH|p a user out _ IH]; intros map; simpl;
    [done|apply IH|].
  rewrite <- IH. f_equal. unfold descStep. by destruct (negb _).
Qed.

Lemma desc_keyed fields map :
  fold_left descStep (filter (fun f => hasKey f = true) fields) map
  = fold_left descStep fields map.
Proof.
  revert map. induction fields as [|f fields IH]; intros map; [done|].
  destruct (hasKey f) eqn:Hkey.
  - rewrite filter_cons_True by done. simpl. apply IH.
  - rewrite filter_cons_False by (by rewrite Hkey). simpl. rewrite IH.
    f_equal. unfold descStep. by rewrite Hkey.
Qed.

Lemma descOf_nonempty f d : descOf f = Some d -> d <> EmptyString.
Proof.
  unfold descOf, truthyStr.
  destruct (desc f) as [s|]; [case_bool_decide as Hs; simpl|simpl].
  - destruct (description f) as [s'|]; [|done].
    case_bool_decide; simpl; [done|]. by intros [= <-].
  - by intros [= <-].
  - destruct (description f) as [s'|]; [|done].
    case_bool_decide; simpl; [done|]. by intros [= <-].
Qed.

Lemma desc_entries fields map p d :
  fold_left descStep fields map !! p = Some d ->
  map !! p = Some d
  \/ exists f, f ∈ fields /\ hasKey f = true
               /\ replaceBrackets (keyOf f) = p /\ descOf f = Some d.
Proof.
  revert map. induction fields as [|f fields IH]; intros map Hp; [by left|].
  simpl in Hp. destruct (IH _ Hp) as [Hmap|(g & Hg & Hrest)].
  - unfold descStep in Hmap. destruct (hasKey f) eqn:Hkey; simpl in Hmap;
      [|by left].
    destruct (descOf f) as [d'|] eqn:Hd; [|by left].
    destruct (decide (replaceBrackets (keyOf f) = p)) as [Heq|Hne].
    + rewrite Heq, lookup_insert_eq in Hmap. simplify_eq.
      right. exists f. repeat split; try done. by left.
    + rewrite lookup_insert_ne in Hmap by done. by left.
  - right. exists g. split; [by right|done].
Qed.

Lemma desc_keeps fields map p :
  is_Some (map !! p) -> is_Some (fold_left descStep fields map !! p).
Proof.
  revert map. induction fields as [|f fields IH]; intros map Hp; [done|].
  simpl. apply IH. unfold descStep. destruct (negb (hasKey f)); [done|].
  destruct (descOf f); [|done].
  destruct (decide (replaceBrackets (keyOf f) = p)) as [->|Hne].
  - rewrite lookup_insert_eq. eauto.
  - by rewrite lookup_insert_ne.
Qed.

Lemma desc_described fields map f d :
  f ∈ fields -> hasKey f = true -> descOf f = Some d ->
  is_Some (fold_left descStep fields map !! replaceBrackets (keyOf f)).
Proof.
  revert map. induction fields as [|g fields IH]; intros map Hin Hkey Hd;
    [by inversion Hin|].
  simpl. apply elem_of_cons in Hin as [<-|Hin]; [|by eapply IH].
  apply desc_keeps. unfold descStep. rewrite Hkey, Hd. simpl.
  rewrite lookup_insert_eq. eauto.
Qed.

Lemma ensureFieldsHaveDesc_Ok fields context f :
  ensureFieldsHaveDesc fields context = Ok tt -> f ∈ fields ->
  exists d, descOf f = Some d.
Proof.
  unfold ensureFieldsHaveDesc. case_bool_decide as Hlen; [|done].
  intros _ Hin. apply length_zero_iff_nil in Hlen.
  unfold descOf. destruct (truthyStr (desc f)) eqn:Hd.
  { destruct (desc f); [eauto|done]. }
  destruct (truthyStr (description f)) eqn:Hd'.
  { destruct (description f); [eauto|done]. }
  exfalso.
  assert (Hbad : f ∈ filter (fun item => truthyStr (desc item) = false
                              /\ truthyStr (description item) = false) fields)
    by by apply list_elem_of_filter.
  rewrite Hlen in Hbad. by inversion Hbad.
Qed.

Lemma buildDescMap_expand fields :
  buildDescMap (expandFieldListWithParents fields) = buildDescMap fields.
Proof.
  unfold buildDescMap.
  change (fold_left descStep (expandFieldListWithParents fields) ∅
          = fold_left descStep fields ∅).
  rewrite (desc_interleaved _ _ (expand_interleaved fields)).
  apply desc_keyed.
Qed.

Lemma buildDescMap_entry fields p d :
  buildDescMap fields !! p = Some d ->
  d <> EmptyString
  /\ exists f, f ∈ fields /\ hasKey f = true
               /\ replaceBrackets (keyOf f) = p /\ descOf f = Some d.
Proof.
  intros Hp.
  destruct (desc_entries fields ∅ p d Hp) as [Hempty|(f & Hf & Hk & Hp' & Hd)].
  - by rewrite lookup_empty in Hempty.
  - split; [by eapply descOf_nonempty|]. by exists f.
Qed.

(** The description index is built from the caller's fields alone: the
    index of the expanded list is the index of the list itself, and every
    entry is the non-empty description of a field of the list that has a
    key, stored under that key with every [[]] written as [[0]]. *)
Theorem descriptionIndex_of_expansion (fields : list Field) :
  buildDescMap (expandFieldListWithParents fields) = buildDescMap fields
  /\ forall p d, buildDescMap fields !! p = Some d ->
       d <> EmptyString
       /\ exists f, f ∈ fields /\ hasKey f = true
                    /\ replaceBrackets (keyOf f) = p /\ descOf f = Some d.
Proof.
  split; [apply buildDescMap_expand|].
  intros p d Hp. by apply buildDescMap_entry.
Qed.

Lemma descriptionIndex_of_expansion_witness :
  let fields := [userField "items[].id" "identifier" None] in
  buildDescMap fields !! "items[0].id" = Some "identifier"
  /\ exists f, f ∈ fields /\ replaceBrackets (keyOf f) = "items[0].id".
Proof.
  intros fields.
  assert (Hp : buildDescMap fields !! "items[0].id" = Some "identifier")
    by (vm_compute; reflexivity).
  split; [exact Hp|].
  destruct (descriptionIndex_of_expansion fields) as [_ Hall].
  destruct (Hall _ _ Hp) as (_ & f & Hf & _ & Hkey & _).
  by exists f.
Defined.

(** A field list that passes [ensureFieldsHaveDesc] is fully annotated:
    every field of it that has a key has a non-empty entry in the
    description index of the expanded list. *)
Theorem validated_fields_are_indexed (fields : list Field) (context : string)
    (f : Field) :
  ensureFieldsHaveDesc fields context = Ok tt ->
  f ∈ fields -> hasKey f = true ->
  exists d, buildDescMap (expandFieldListWithParents fields)
              !! replaceBrackets (keyOf f) = Some d
            /\ d <> EmptyString.
Proof.
  intros Hok Hin Hkey.
  destruct (ensureFieldsHaveDesc_Ok _ _ _ Hok Hin) as [d0 Hd0].
  rewrite buildDescMap_expand.
  destruct (desc_described fields ∅ f d0 Hin Hkey Hd0) as [d Hd].
  exists d. split; [exact Hd|].
  by destruct (buildDescMap_entry _ _ _ Hd) as [Hne _].
Qed.
End DescriptionFacts.

Lemma validated_fields_are_indexed_witness :
  let fields := [userField "data.code" "status code" (Some (JNum 0))] in
  exists d, buildDescMap (expandFieldListWithParents fields) !! "data.code"
            = Some d /\ d <> EmptyString.
Proof.
  intros fields.
  apply (validated_fields_are_indexed fields "body"
           (userField "data.code" "status code" (Some (JNum 0)))).
  - vm_compute. reflexivity.
  - apply elem_of_cons. by left.
  - reflexivity.
Defined.

(** ** A flat field, end to end *)

Section FlatField.
Context `{Runtime}.

Lemma flatKey_parts k :
  flatKey k = true ->
  noDot k = true /\ k <> EmptyString /\ endsWithBrackets k = false
  /\ replaceBrackets k = k.
Proof.
  unfold flatKey. rewrite !andb_true_iff, !negb_true_iff.
  intros [[[Hd Hne] Hb] Hr].
  apply bool_decide_eq_false in Hne. apply bool_decide_eq_true in Hr.
  done.
Qed.

Lemma obj_set_empty k v : obj_set [] k v = [(k, v)].
Proof. unfold obj_set. simpl. by destruct (arrayIndex k). Qed.

(** A single field with a flat key other than [__proto__] is rendered on
    one line between the braces: four spaces, the quoted key, the example
    (or default) as [JSON.stringify] prints it, and the description as a
    trailing comment. *)
Theorem flat_field_annotated (f : Field) (k d : string) :
  key f = Some k -> flatKey k = true -> k <> "__proto__" ->
  autoParent f = false ->
  descOf f = Some d -> isObjectLike (leafValue f) = false ->
  let fields := expandFieldListWithParents [f] in
  stringifyWithComments (buildJsonFromFieldList fields) (buildDescMap fields)
    EmptyString 4 0
  = "{" +:+ newline
    +:+ ("    " +:+ dquote +:+ k +:+ dquote +:+ ": "
         +:+ JSON_stringify (leafValue f) +:+ " // " +:+ d)
    +:+ newline +:+ "}".
Proof.
  intros Hk Hflat _ Hauto Hd Hleaf fields.
  destruct (flatKey_parts k Hflat) as (Hdot & Hne & Hbr & Hrep).
  assert (Hkey : hasKey f = true).
  { unfold hasKey. rewrite Hk. simpl. by rewrite bool_decide_eq_false_2. }
  assert (HkeyOf : keyOf f = k) by (unfold keyOf; by rewrite Hk).
  assert (Hdoc : buildJsonFromFieldList fields = JObj [(k, leafValue f)]).
  { unfold fields. rewrite buildJson_expand.
    unfold buildJsonFromFieldList. simpl. rewrite Hauto, Hkey, HkeyOf. simpl.
    unfold pathSegments. rewrite (split_dot_plain k Hdot). simpl.
    rewrite Hbr. simpl. by rewrite obj_set_empty. }
  assert (Hidx : buildDescMap fields = {[k := d]}).
  { unfold fields. rewrite buildDescMap_expand.
    unfold buildDescMap. simpl. rewrite Hkey, Hd, HkeyOf, Hrep. simpl.
    by rewrite insert_empty. }
  rewrite Hdoc, Hidx.
  assert (Hd' : d <> EmptyString).
  { unfold descOf, truthyStr in Hd.
    destruct (desc f) as [s|]; [case_bool_decide; simpl in Hd|simpl in Hd].
    - destruct (description f) as [s'|]; [|done].
      case_bool_decide; simpl in Hd; [done|]. by simplify_eq.
    - by simplify_eq.
    - destruct (description f) as [s'|]; [|done].
      case_bool_decide; simpl in Hd; [done|]. by simplify_eq. }
  cbn [stringifyWithComments]. rewrite bool_decide_eq_true_2 by done.
  unfold commentFor. rewrite lookup_singleton_eq.
  rewrite bool_decide_eq_false_2 by done.
  destruct (leafValue f); try done.
Qed.
End FlatField.

Lemma flat_field_annotated_witness :
  let fields := expandFieldListWithParents
                  [userField "code" "status code" (Some (JNum 0))] in
  @stringifyWithComments sampleRuntime (buildJsonFromFieldList fields)
    (buildDescMap fields) EmptyString 4 0
  = "{" +:+ newline
    +:+ ("    " +:+ dquote +:+ "code" +:+ dquote +:+ ": " +:+ "0"
         +:+ " // " +:+ "status code")
    +:+ newline +:+ "}".
Proof.
  apply (@flat_field_annotated sampleRuntime
           (userField "code" "status code" (Some (JNum 0)))
           "code" "status code"); try reflexivity.
  discriminate.
Defined.

(** ** Lists that declare their own parents *)

Lemma expandFrom_skips_keyless userKeys st fields :
  expandFrom userKeys st fields
  = expandFrom userKeys st (filter (fun f => hasKey f = true) fields).
Proof.
  revert st. induction fields as [|f fields IH]; intros st; [done|].
  rewrite filter_cons. destruct (decide (hasKey f = true)) as [Hk|Hk].
  - unfold expandFrom in *. simpl. apply IH.
  - unfold expandFrom in *. simpl. rewrite <- IH.
    unfold expandStep at 2. apply not_true_is_false in Hk. by rewrite Hk.
Qed.

(** A list that declares every parent itself is left alone: when each
    proper prefix of each key is the key of some field of the list, before
    or after, the expansion is the list without its keyless entries, in
    the same order and with nothing added. *)
Theorem expand_declared_list_unchanged (fields : list Field) :
  (forall f q, f ∈ fields -> hasKey f = true -> properPrefix q (keyOf f) ->
     q ∈ userKeysOf fields) ->
  expandFieldListWithParents fields
  = filter (fun f => hasKey f = true) fields.
Proof.
  intros Hdecl. unfold expandFieldListWithParents.
  fold (expandFrom (userKeysOf fields) ([], ∅) fields).
  rewrite expandFrom_skips_keyless.
  destruct (expandFrom_quiet (userKeysOf fields)
              (filter (fun f => hasKey f = true) fields) [] [] ∅)
    as (seen' & Hrun).
  - intros y Hy. by apply elem_of_nil in Hy.
  - intros x Hx. by apply list_elem_of_filter in Hx as [Hk _].
  - intros i x q Hi Hq. left.
    apply list_elem_of_lookup_2, list_elem_of_filter in Hi as [Hk Hin].
    by eapply Hdecl.
  - by rewrite Hrun.
Qed.

Lemma expand_declared_list_unchanged_witness :
  expandFieldListWithParents childBeforeParent
  = filter (fun f => hasKey f = true) childBeforeParent.
Proof.
  apply (expand_declared_list_unchanged childBeforeParent).
  intros f q Hin _ (j & Hj & Hlen).
  assert (Hq : q = "a").
  { unfold childBeforeParent in Hin.
    apply elem_of_cons in Hin as [->|Hin];
      [|apply elem_of_cons in Hin as [->|Hin]; [|by apply elem_of_nil in Hin]].
    - vm_compute in Hlen. destruct j as [|j]; [|lia].
      vm_compute in Hj. congruence.
    - vm_compute in Hlen. lia. }
  subst q. vm_compute. done.
Defined.

(** ** More on the response-set normalizer *)

Section NormalizerOutcomes.
Context `{Runtime}.


Lemma convertResponses_head clock index r rs converted :
  convertResponses clock index (r :: rs) = Ok converted ->
  exists c others, converted = c :: others
                   /\ isApiPostResponseExample c = true.
Proof.
  simpl. destruct (convertResponse clock index r) as [[c drawn]|] eqn:Hc;
    [|done].
  destruct (convertResponses _ _ rs) as [others|]; [|done].
  intros [= <-]. exists c, others. split; [done|].
  by eapply convertResponse_canonical.
Qed.


(** Normalizing twice changes nothing: the examples returned for a
    non-empty list, given back as the list, are returned as they are,
    whatever the id clock is by then. *)
Theorem normalizeResponses_idempotent (clock clock' : nat)
    (responses : list Resp) (options : Options) (n : Normalized) :
  responses <> [] ->
  normalizeResponses clock (Some responses) options = Ok n ->
  normalizeResponses clock' (Some (n_example n)) options = Ok n.
Proof.
  intros Hne. destruct responses as [|r rs]; [done|].
  unfold normalizeResponses at 1.
  destruct (existsb isApiPostResponseExample (r :: rs)) eqn:Hsome.
  - intros [= <-]. cbn [n_example]. unfold normalizeResponses.
    by rewrite Hsome.
  - destruct (convertResponses clock 0 (r :: rs)) as [converted|] eqn:Hconv;
      [|done].
    intros [= <-]. cbn [n_example].
    destruct (convertResponses_head _ _ _ _ _ Hconv) as (c & others & -> & Hc).
    unfold normalizeResponses. simpl. by rewrite Hc.
Qed.
End NormalizerOutcomes.


Lemma normalizeResponses_idempotent_witness :
  let responses :=
    [simpleResponse (Some [userField "code" "status code" (Some (JNum 0))])] in
  exists n,
    @normalizeResponses sampleRuntime 0 (Some responses) defaultOptions = Ok n
    /\ @normalizeResponses sampleRuntime 5 (Some (n_example n)) defaultOptions
       = Ok n.
Proof.
  intros responses.
  destruct (@normalizeResponses sampleRuntime 0 (Some responses) defaultOptions)
    as [n|msg] eqn:Hrun; [|vm_compute in Hrun; discriminate].
  exists n. split; [done|].
  apply (@normalizeResponses_idempotent sampleRuntime 0 5 responses);
    [discriminate|exact Hrun].
Defined.

(** ** Collections without parent cycles *)

Section Forest.
Variable itemMap : gmap string Item.

(** Every known node has a root path: no node is on a parent cycle or
    below one. *)
Hypothesis Hforest : forall t, is_Some (itemMap !! t) ->
  exists p, rootPath itemMap t p.

Lemma BuildPath_quiet t st path st' :
  BuildPath itemMap t st path st' ->
  belowAll itemMap t (visited st) ->
  (forall v, v ∈ visited st -> is_Some (itemMap !! v)) ->
  warnings st' = warnings st.
Proof.
  induction 1 as [t st path Hmemo|t st Hmemo Hvis|t st Hmemo Hvis Hitem
                 |t st item Hmemo Hvis Hitem Hpar
                 |t st item parent pp st2 Hmemo Hvis Hitem Hpar Hsub IH];
    intros Hbelow Hknown; simpl; try done.
  - exfalso. destruct (Hforest t (Hknown t Hvis)) as [p Hp].
    destruct (Hbelow p Hp t Hvis) as (q & Hq & Hlen).
    rewrite (rootPath_fun _ _ _ _ Hp Hq) in Hlen. lia.
  - rewrite IH; [done| |].
    + intros p Hp v Hv. simpl in Hv.
      assert (Ht : rootPath itemMap t (p ++ [name item]))
        by (eapply rootPath_child; eauto).
      apply elem_of_union in Hv as [Hv|Hv].
      * apply elem_of_singleton in Hv as ->.
        exists (p ++ [name item]). split; [done|].
        rewrite length_app. simpl. lia.
      * destruct (Hbelow _ Ht v Hv) as (q & Hq & Hlen).
        exists q. split; [done|].
        rewrite length_app in Hlen. simpl in Hlen. lia.
    + intros v Hv. simpl in Hv. apply elem_of_union in Hv as [Hv|Hv].
      * apply elem_of_singleton in Hv as ->. eauto.
      * by apply Hknown.
Qed.

Lemma buildAll_quiet fuel items st st' :
  buildAll fuel itemMap items st = Some st' ->
  warnings st' = warnings st.
Proof.
  revert st. induction items as [|x items IH]; intros st Hrun.
  { by inversion Hrun; subst. }
  rewrite buildAll_cons in Hrun.
  destruct (buildPath fuel itemMap (target_id x) (freshClimb st))
    as [[p s1]|] eqn:Hcall; [|done].
  apply buildPath_BuildPath in Hcall.
  rewrite (IH _ Hrun).
  rewrite (BuildPath_quiet _ _ _ _ Hcall); [done| |].
  - intros ? ? v Hv. simpl in Hv. set_solver.
  - intros v Hv. simpl in Hv. set_solver.
Qed.
End Forest.

(** On a collection without parent cycles (every node reaches a root or
    an unknown parent) [buildPathMap] prints no cycle warning, and the map
    it returns holds exactly the root-to-node name paths: an id is mapped
    to a path if and only if that path is the chain of names from the top
    of its tree down to the node. *)
Theorem buildPathMap_forest (items : list Item) :
  (forall item, item ∈ items ->
     exists p, rootPath (buildItemMap items) (target_id item) p) ->
  exists st,
    buildPathMap_run items = Some st
    /\ buildPathMap items = Some (pathMap st)
    /\ warnings st = []
    /\ forall t path,
         pathMap st !! t = Some path
         <-> rootPath (buildItemMap items) t path.
Proof.
  intros Hroots.
  assert (Hforest : forall t, is_Some (buildItemMap items !! t) ->
            exists p, rootPath (buildItemMap items) t p).
  { intros t [reg Hreg].
    destruct (buildItemMap_lookup _ _ _ Hreg) as [Hin <-]. by apply Hroots. }
  destruct (buildPathMap_run_terminates items) as [st Hrun].
  exists st. split; [done|]. unfold buildPathMap. rewrite Hrun.
  split; [done|]. unfold buildPathMap_run in Hrun.
  split; [by rewrite (buildAll_quiet _ Hforest _ _ _ _ Hrun)|].
  assert (Hs : soundFor (buildItemMap items) (pathMap st)).
  { eapply (buildAll_invariant _ _ (soundFor (buildItemMap items)));
      [|exact Hrun|apply empty_soundFor].
    intros u s p s' Hcall Hvis Hs.
    apply (BuildPath_sound _ _ _ _ _ Hcall Hs).
    intros ? ? v Hv. rewrite Hvis in Hv. set_solver. }
  destruct Hs as [Hdom Hs].
  intros t path. split.
  - intros Hpath. destruct (Hforest t) as [q Hq]; [apply Hdom; eauto|].
    by rewrite (Hs _ _ _ Hq Hpath).
  - intros Hpath.
    assert (Hknown : exists item, buildItemMap items !! t = Some item)
      by (inversion Hpath; eauto).
    destruct Hknown as [item Hitem].
    destruct (buildItemMap_lookup _ _ _ Hitem) as [Hin <-].
    destruct (buildAll_covers _ _ _ _ _ item Hrun Hin) as [v Hv]; [eauto|].
    by rewrite Hv, (Hs _ _ _ Hpath Hv).
Qed.

Lemma buildPathMap_forest_witness :
  let C := {| target_id := "C"; parent_id := Some "0"; name := "c" |} in
  let D := {| target_id := "D"; parent_id := Some "C"; name := "d" |} in
  exists st,
    buildPathMap_run [D; C] = Some st
    /\ warnings st = []
    /\ pathMap st !! "D" = Some ["c"; "d"].
Proof.
  intros C D.
  assert (HC : rootPath (buildItemMap [D; C]) "C" ["c"]).
  { apply (rootPath_top _ "C" C); vm_compute; reflexivity. }
  assert (HD : rootPath (buildItemMap [D; C]) "D" ["c"; "d"]).
  { apply (rootPath_child _ "D" D "C" ["c"]);
      [vm_compute; reflexivity|vm_compute; reflexivity|exact HC]. }
  destruct (buildPathMap_forest [D; C]) as (st & Hrun & _ & Hquiet & Hmap).
  - intros item Hin.
    apply elem_of_cons in Hin as [->|Hin];
      [|apply elem_of_cons in Hin as [->|Hin]; [|by apply elem_of_nil in Hin]].
    + by exists ["c"; "d"].
    + by exists ["c"].
  - exists st. split; [exact Hrun|]. split; [exact Hquiet|]. by apply Hmap.
Defined.

(** ** The body section *)

Section BodyFacts.
Context `{Runtime}.

Lemma interleaved_members user out x :
  interleaved user out -> x ∈ out ->
  x ∈ user \/ exists p a, x = autoParentField p a.
Proof.
  induction 1 as [|y user out _ IH|p a user out _ IH]; intros Hx.
  - by apply elem_of_nil in Hx.
  - apply elem_of_cons in Hx as [->|Hx]; [left; by left|].
    destruct (IH Hx) as [?|?]; [left; by right|by right].
  - apply elem_of_cons in Hx as [->|Hx]; [right; eauto|by apply IH].
Qed.

Lemma convertParams_members clock fields d :
  d ∈ convertParams clock fields <->
  exists i f, fields !! i = Some f
              /\ d = convertParam (generateId (clock + i)) f.
Proof.
  split.
  - intros [i Hi]%list_elem_of_lookup.
    assert (Hlt : i < length fields).
    { rewrite <- (convertParams_length clock). by eapply lookup_lt_Some. }
    destruct (lookup_lt_is_Some_2 _ _ Hlt) as [f Hf].
    exists i, f. split; [done|].
    rewrite (convertParams_lookup clock fields i f Hf) in Hi. by simplify_eq.
  - intros (i & f & Hf & ->). eapply list_elem_of_lookup_2.
    by apply convertParams_lookup.
Qed.



(** The parameter table of the body section, for field lists on which
    the synthesis stays on plain objects and that carry no object or array
    example (the descriptors are made after the synthesis): every field of
    the caller that has a key has its own descriptor in the table, and
    every descriptor of the table is either the descriptor of such a field
    or the descriptor of an added parent, which is unchecked, nullable,
    has no description and no value, and has the type [object] or
    [array]. *)
Theorem buildBodySection_parameters (clock : nat) (bodyParams : list Field) :
  staysOnObjects bodyParams = true ->
  primitiveExamples bodyParams = true ->
  let table := b_raw_parameter (buildBodySection clock bodyParams) in
  (forall f, f ∈ bodyParams -> hasKey f = true ->
     exists id, convertParam id f ∈ table)
  /\ (forall d, d ∈ table ->
        (exists id f, f ∈ bodyParams /\ hasKey f = true
                      /\ d = convertParam id f)
        \/ (exists p a, p_key d = Some p
              /\ p_is_checked d = 0%Z /\ p_not_null d = 0%Z
              /\ p_value d = JStr EmptyString
              /\ p_description d = EmptyString
              /\ p_field_type d = if a : bool then "array" else "object")).
Proof.
  intros _ _ table. unfold table, buildBodySection. cbn [b_raw_parameter].
  pose proof (expand_interleaved bodyParams) as Hint.
  split.
  - intros f Hin Hkey.
    assert (Hout : f ∈ expandFieldListWithParents bodyParams).
    { apply (sublist_subseteq _ _ (interleaved_sublist _ _ Hint)).
      by apply list_elem_of_filter. }
    apply list_elem_of_lookup in Hout as [i Hi].
    exists (generateId (clock + i)). apply convertParams_members. eauto.
  - intros d (i & x & Hx & ->)%convertParams_members.
    apply list_elem_of_lookup_2 in Hx.
    destruct (interleaved_members _ _ _ Hint Hx) as [Huser|(p & a & ->)].
    + left. apply list_elem_of_filter in Huser as [Hkey Hin]. eauto.
    + right. exists p, a. by destruct a.
Qed.
End BodyFacts.

Lemma buildBodySection_parameters_witness :
  let bodyParams := [userField "items[].id" "identifier" (Some (JStr "x1"))] in
  exists id,
    convertParam id (userField "items[].id" "identifier" (Some (JStr "x1")))
    ∈ b_raw_parameter (@buildBodySection sampleRuntime 0 bodyParams).
Proof.
  intros bodyParams.
  destruct (@buildBodySection_parameters sampleRuntime 0 bodyParams)
    as [Hown _]; [vm_compute; reflexivity|vm_compute; reflexivity|].
  apply Hown; [by left|reflexivity].
Defined.

(** ** Validation of responses *)

Section ResponseValidation.

Lemma ensureFieldsHaveDesc_Ok_iff fs context :
  ensureFieldsHaveDesc fs context = Ok tt <-> Forall described fs.
Proof.
  unfold ensureFieldsHaveDesc.
  set (missing := filter _ fs).
  assert (Hiff : missing = [] <-> Forall described fs).
  { unfold missing. induction fs as [|f fs IH]; [done|].
    rewrite filter_cons, Forall_cons. unfold described at 1.
    destruct (decide _) as [[Hd Hd']|Hno].
    - split; [done|]. intros [[?|?] _]; congruence.
    - rewrite IH. split; [|by intros [_ ?]]. intros Hall. split; [|done].
      destruct (truthyStr (desc f)); [by left|].
      destruct (truthyStr (description f)); [by right|].
      exfalso. by apply Hno. }
  case_bool_decide as Hlen.
  - split; [|done]. intros _. apply Hiff. by destruct missing.
  - split; [done|]. intros Hall. apply Hiff in Hall. by rewrite Hall in Hlen.
Qed.

Lemma ensureFieldsHaveDesc_Throw fs context msg :
  ensureFieldsHaveDesc fs context = Throw msg ->
  msg = context +:+ " 缺少 desc，请为每个字段填写 desc"
  /\ ~ Forall described fs.
Proof.
  intros Hrun. split.
  - unfold ensureFieldsHaveDesc in Hrun. case_bool_decide; by simplify_eq.
  - intros Hall. apply (ensureFieldsHaveDesc_Ok_iff fs context) in Hall.
    congruence.
Qed.

Lemma ensureResponses_from_Ok_iff index responses :
  ensureResponsesFieldsHaveDesc_from index responses = Ok tt
  <-> Forall acceptable responses.
Proof.
  revert index. induction responses as [|resp rest IH]; intros index; [done|].
  simpl. rewrite Forall_cons. unfold acceptable at 1.
  destruct (fields resp) as [fs|].
  - destruct (ensureFieldsHaveDesc fs _) as [[]|msg] eqn:Hfs.
    + rewrite IH. apply ensureFieldsHaveDesc_Ok_iff in Hfs.
      split; [|by intros [_ ?]]. intros ?. split; [|done]. eauto.
    + apply ensureFieldsHaveDesc_Throw in Hfs as [_ Hbad].
      split; [done|]. intros [(fs' & [= <-] & Hall) _]. done.
  - split; [done|]. by intros [(fs' & ? & _) _].
Qed.

Lemma ensureResponses_from_Throw index responses msg :
  ensureResponsesFieldsHaveDesc_from index responses = Throw msg ->
  exists i resp,
    responses !! i = Some resp
    /\ Forall acceptable (take i responses)
    /\ ((fields resp = None
         /\ msg = "responses[" +:+ pretty (index + i)%nat
                  +:+ "] 未提供 fields 或格式不正确")
        \/ (exists fs, fields resp = Some fs /\ ~ Forall described fs
              /\ msg = ("responses[" +:+ pretty (index + i)%nat +:+ "].fields")
                       +:+ " 缺少 desc，请为每个字段填写 desc")).
Proof.
  revert index. induction responses as [|resp rest IH]; intros index; [done|].
  simpl. destruct (fields resp) as [fs|] eqn:Hfields.
  - destruct (ensureFieldsHaveDesc fs _) as [[]|msg'] eqn:Hfs.
    + intros Hrest. destruct (IH _ Hrest) as (i & r & Hi & Hbefore & Hwhy).
      exists (S i), r. split; [done|]. split.
      * simpl. apply Forall_cons. split; [|done].
        exists fs. split; [done|]. by eapply ensureFieldsHaveDesc_Ok_iff.
      * by replace (index + S i)%nat with (S index + i)%nat by lia.
    + intros [= ->]. apply ensureFieldsHaveDesc_Throw in Hfs as [-> Hbad].
      exists 0%nat, resp. split; [done|]. split; [constructor|].
      right. exists fs. rewrite Nat.add_0_r. done.
  - intros [= <-]. exists 0%nat, resp. split; [done|]. split; [constructor|].
    left. rewrite Nat.add_0_r. done.
Qed.

(** The response check accepts a list exactly when every response has an
    array of fields and every field in it carries a non-empty [desc] or
    [description]; a response without a field array is rejected even when
    it is already in ApiPost's own form. *)
Theorem ensureResponsesFieldsHaveDesc_accepts_iff (responses : list Resp) :
  ensureResponsesFieldsHaveDesc responses = Ok tt
  <-> Forall acceptable responses.
Proof. unfold ensureResponsesFieldsHaveDesc. apply ensureResponses_from_Ok_iff. Qed.

(** When the response check throws, the message names the first response
    that fails it, by its position in the list, and says which of the two
    faults it has: no field array, or a field without description. *)
Theorem ensureResponsesFieldsHaveDesc_reports_first (responses : list Resp)
    (msg : string) :
  ensureResponsesFieldsHaveDesc responses = Throw msg ->
  exists i resp,
    responses !! i = Some resp
    /\ Forall acceptable (take i responses)
    /\ ((fields resp = None
         /\ msg = "responses[" +:+ pretty i +:+ "] 未提供 fields 或格式不正确")
        \/ (exists fs, fields resp = Some fs /\ ~ Forall described fs
              /\ msg = ("responses[" +:+ pretty i +:+ "].fields")
                       +:+ " 缺少 desc，请为每个字段填写 desc")).
Proof.
  unfold ensureResponsesFieldsHaveDesc. intros Hrun.
  destruct (ensureResponses_from_Throw 0 responses msg Hrun)
    as (i & resp & Hi & Hbefore & Hwhy).
  exists i, resp. done.
Qed.
End ResponseValidation.

Lemma ensureResponsesFieldsHaveDesc_reports_first_witness :
  let responses :=
    [simpleResponse (Some [userField "code" "status code" None]);
     simpleResponse None] in
  exists i resp,
    responses !! i = Some resp
    /\ Forall acceptable (take i responses)
    /\ ((fields resp = None
         /\ "responses[1] 未提供 fields 或格式不正确"
            = "responses[" +:+ pretty i +:+ "] 未提供 fields 或格式不正确")
        \/ (exists fs, fields resp = Some fs /\ ~ Forall described fs
              /\ "responses[1] 未提供 fields 或格式不正确"
                 = ("responses[" +:+ pretty i +:+ "].fields")
                   +:+ " 缺少 desc，请为每个字段填写 desc")).
Proof.
  intros responses.
  apply (ensureResponsesFieldsHaveDesc_reports_first responses).
  vm_compute. reflexivity.
Defined.
